(** * OfflineQueue: the persisted event queue and its batched upload pipeline

    A shallow embedding of [OfflineQueue.ts] (class [OfflineQueue]) and the
    properties of its queue, retry and upload logic.

    Conventions of the embedding.
    - JavaScript numbers that the code uses as counters, sizes, indices and
      epoch milliseconds are integers ([Z]).
    - [JSON.stringify] followed by [JSON.parse] gives back the same list of
      events; the persisted text is therefore kept as the event list it
      encodes ([Serialized]), or as [Malformed] text that [JSON.parse]
      rejects.  A request body is kept as the JSON tree handed to
      [JSON.stringify].
    - An [async] method is a function from the current world to the world
      after its synchronous prefix, paired with the suspended rest of the
      method ([Task]).  Every [await] is a suspension point at which the
      event loop may run any other ready continuation.
    - Everything the code cannot decide itself (whether a storage call
      succeeds, what the server answers, the clock, the random source, the
      connectivity probe) is read from an environment [Env], indexed by how
      many calls of that kind were made before. *)

From stdpp Require Import base list gmap strings pretty.
From Stdlib Require Import ZArith Lia Ascii.

Set Warnings "-register-all".
Local Open Scope Z_scope.

(** ** Data model *)

(** [QueuedEvent.type] *)
Inductive EventType := crash | performance | network | session | custom.

(** [QueuedEvent.data : any], as far as JSON keeps it. *)
Inductive json :=
| JNull
| JBool (b : bool)
| JNum (n : Z)
| JStr (s : string)
| JArr (items : list json)
| JObj (fields : list (string * json)).

(** [interface QueuedEvent] *)
Record QueuedEvent := {
  id : string;
  timestamp : Z;
  type : EventType;
  data : json;
  retryCount : Z;
  maxRetries : Z;
}.

(** The argument of [saveEvent]:
    [Omit<QueuedEvent, 'id' | 'timestamp' | 'retryCount' | 'maxRetries'>]. *)
Record NewEvent := {
  new_type : EventType;
  new_data : json;
}.

(** [interface UploadConfig]; [apiKey] is optional. *)
Record UploadConfig := {
  serverUrl : string;
  apiKey : option string;
  batchSize : Z;
  config_maxRetries : Z;
  retryDelay : Z;
}.

(** The constructor's defaults. *)
Definition default_config : UploadConfig := {|
  serverUrl := "https://your-server.com/upload";
  apiKey := None;
  batchSize := 50;
  config_maxRetries := 3;
  retryDelay := 5000;
|}.

(** What the stored item holds: the text of an array of events, or text
    that [JSON.parse] rejects.  The item is written by this class only, and
    always as [JSON.stringify] of an array of events; text that parses to
    something else ([null], an object, a number) is never written by it and
    is outside the model. *)
Inductive StoredText :=
| Serialized (events : list QueuedEvent)
| Malformed.

(** The second argument of [fetch], with the URL. *)
Record Request := {
  url : string;
  method : string;
  headers : list (string * string);
  body : json;
}.

(** How a [fetch] promise settles. *)
Inductive FetchResult :=
| Responded (status : Z)
| Rejected.

(** [response.ok] *)
Definition ok (status : Z) : bool := (200 <=? status) && (status <=? 299).

(** Values thrown and caught in the class. *)
Inductive Error :=
| StorageError
| SyntaxError
| NetInfoError
| TransportError
| UploadFailed (status : Z).

(** Lines written to the console. *)
Inductive LogEntry :=
| EventSaved (t : EventType)
| FailedToSave (e : Error)
| NoConnection
| Uploaded (n : nat)
| FailedToUpload (e : Error)
| BatchFailed (e : Error)
| ExceededMaxRetries (event_id : string)
| FailedToGetStored (e : Error).

(** ** The environment *)

Record Env := {
  (** does the n-th [AsyncStorage.getItem] resolve *)
  getItem_ok : nat -> bool;
  (** does the n-th [AsyncStorage.setItem] or [removeItem] resolve *)
  setItem_ok : nat -> bool;
  (** the n-th [NetInfo.fetch]: [None] rejects, [Some c] resolves with
      [isConnected = c] ([boolean | null]) *)
  netInfo : nat -> option (option bool);
  (** how the n-th [fetch] settles, given the request *)
  server : nat -> Request -> FetchResult;
  (** the n-th [Date.now()] *)
  clock : nat -> Z;
  (** the n-th [Math.random().toString(36).substr(2, 9)] *)
  random : nat -> string;
}.

(** ** The world: the queue object, the device storage and what was observed *)

Record World := {
  config : UploadConfig;          (* this.config *)
  isUploading : bool;             (* this.isUploading *)
  uploadInterval : option nat;    (* this.uploadInterval, a timer handle *)
  disk : option StoredText;       (* the AsyncStorage item 'events' *)
  timers : list nat;              (* timeouts set and neither fired nor cleared *)
  sent : list Request;            (* every fetch issued, oldest first *)
  console : list LogEntry;        (* console output, oldest first *)
  reads : nat;                    (* getItem calls settled *)
  writes : nat;                   (* setItem and removeItem calls settled *)
  probes : nat;                   (* NetInfo.fetch calls settled *)
  nows : nat;                     (* Date.now() calls *)
  randoms : nat;                  (* Math.random() calls *)
  handles : nat;                  (* setTimeout calls *)
}.

Definition set_isUploading (b : bool) (w : World) : World :=
  {| config := config w; isUploading := b; uploadInterval := uploadInterval w;
     disk := disk w; timers := timers w; sent := sent w; console := console w;
     reads := reads w; writes := writes w; probes := probes w; nows := nows w;
     randoms := randoms w; handles := handles w |}.

Definition set_uploadInterval (h : option nat) (w : World) : World :=
  {| config := config w; isUploading := isUploading w; uploadInterval := h;
     disk := disk w; timers := timers w; sent := sent w; console := console w;
     reads := reads w; writes := writes w; probes := probes w; nows := nows w;
     randoms := randoms w; handles := handles w |}.

Definition set_timers (ts : list nat) (w : World) : World :=
  {| config := config w; isUploading := isUploading w;
     uploadInterval := uploadInterval w;
     disk := disk w; timers := ts; sent := sent w; console := console w;
     reads := reads w; writes := writes w; probes := probes w; nows := nows w;
     randoms := randoms w; handles := handles w |}.

Definition did_setTimeout (w : World) : World :=
  {| config := config w; isUploading := isUploading w;
     uploadInterval := uploadInterval w;
     disk := disk w; timers := timers w; sent := sent w; console := console w;
     reads := reads w; writes := writes w; probes := probes w; nows := nows w;
     randoms := randoms w; handles := S (handles w) |}.

Definition did_read (w : World) : World :=
  {| config := config w; isUploading := isUploading w;
     uploadInterval := uploadInterval w;
     disk := disk w; timers := timers w; sent := sent w; console := console w;
     reads := S (reads w); writes := writes w; probes := probes w;
     nows := nows w; randoms := randoms w; handles := handles w |}.

(** A settled write: the item becomes [d] (or stays, when the call failed and
    [d] is the old content). *)
Definition did_write (d : option StoredText) (w : World) : World :=
  {| config := config w; isUploading := isUploading w;
     uploadInterval := uploadInterval w;
     disk := d; timers := timers w; sent := sent w; console := console w;
     reads := reads w; writes := S (writes w); probes := probes w;
     nows := nows w; randoms := randoms w; handles := handles w |}.

Definition did_probe (w : World) : World :=
  {| config := config w; isUploading := isUploading w;
     uploadInterval := uploadInterval w;
     disk := disk w; timers := timers w; sent := sent w; console := console w;
     reads := reads w; writes := writes w; probes := S (probes w);
     nows := nows w; randoms := randoms w; handles := handles w |}.

Definition did_now (w : World) : World :=
  {| config := config w; isUploading := isUploading w;
     uploadInterval := uploadInterval w;
     disk := disk w; timers := timers w; sent := sent w; console := console w;
     reads := reads w; writes := writes w; probes := probes w;
     nows := S (nows w); randoms := randoms w; handles := handles w |}.

Definition did_random (w : World) : World :=
  {| config := config w; isUploading := isUploading w;
     uploadInterval := uploadInterval w;
     disk := disk w; timers := timers w; sent := sent w; console := console w;
     reads := reads w; writes := writes w; probes := probes w;
     nows := nows w; randoms := S (randoms w); handles := handles w |}.

Definition did_fetch (r : Request) (w : World) : World :=
  {| config := config w; isUploading := isUploading w;
     uploadInterval := uploadInterval w;
     disk := disk w; timers := timers w; sent := sent w ++ [r];
     console := console w;
     reads := reads w; writes := writes w; probes := probes w;
     nows := nows w; randoms := randoms w; handles := handles w |}.

Definition did_log (l : LogEntry) (w : World) : World :=
  {| config := config w; isUploading := isUploading w;
     uploadInterval := uploadInterval w;
     disk := disk w; timers := timers w; sent := sent w;
     console := console w ++ [l];
     reads := reads w; writes := writes w; probes := probes w;
     nows := nows w; randoms := randoms w; handles := handles w |}.

Definition set_config (cfg : UploadConfig) (w : World) : World :=
  {| config := cfg; isUploading := isUploading w;
     uploadInterval := uploadInterval w;
     disk := disk w; timers := timers w; sent := sent w; console := console w;
     reads := reads w; writes := writes w; probes := probes w; nows := nows w;
     randoms := randoms w; handles := handles w |}.

(** The world of a freshly constructed queue over a given device storage. *)
Definition new_OfflineQueue (cfg : UploadConfig) (d : option StoredText) : World :=
  {| config := cfg; isUploading := false; uploadInterval := None;
     disk := d; timers := []; sent := []; console := [];
     reads := 0; writes := 0; probes := 0; nows := 0; randoms := 0;
     handles := 0 |}.

(** [MobilePulseSDK.configureOfflineQueue]:
    [Object.assign(offlineQueue, new OfflineQueue(uploadConfig))] copies the
    fields of a fresh queue, its configuration and its cleared guard, onto
    the singleton. *)
Definition configureOfflineQueue (uploadConfig : UploadConfig) (w : World)
  : World :=
  set_isUploading false (set_config uploadConfig w).

(** ** Asynchronous computations *)

(** How a computation ends.  [Diverge] is a synchronous loop that never
    returns; no handler intercepts it. *)
Inductive Outcome (A : Type) : Type :=
| Ok (a : A)
| Throw (e : Error)
| Diverge.
Arguments Ok {A} a.
Arguments Throw {A} e.
Arguments Diverge {A}.

(** A method after its synchronous prefix: finished, or suspended at an
    [await]; resuming it in the world of that moment runs it up to its next
    suspension. *)
Inductive Task (A : Type) : Type :=
| Done (o : Outcome A)
| Await (k : World -> World * Task A).
Arguments Done {A} o.
Arguments Await {A} k.

Definition Async (A : Type) : Type := World -> World * Task A.

(** Continue [t] with [f], which receives how [t] ended. *)
Fixpoint resume {A B} (t : Task A) (f : Outcome A -> Async B) (w : World)
  : World * Task B :=
  match t with
  | Done o => f o w
  | Await k =>
      (w, Await (fun w' => let (w'', t') := k w' in resume t' f w''))
  end.

Definition andThen {A B} (m : Async A) (f : Outcome A -> Async B) : Async B :=
  fun w => let (w', t) := m w in resume t f w'.

Definition finish {A} (o : Outcome A) : Async A := fun w => (w, Done o).

Definition pure {A} (a : A) : Async A := finish (Ok a).

Definition throw {A} (e : Error) : Async A := finish (Throw e).

Definition bind {A B} (m : Async A) (f : A -> Async B) : Async B :=
  andThen m (fun o =>
    match o with
    | Ok a => f a
    | Throw e => finish (Throw e)
    | Diverge => finish Diverge
    end).

#[export] Instance Async_ret : MRet Async := @pure.
#[export] Instance Async_bind : MBind Async := fun A B f m => bind m f.

(** [try { m } catch (error) { h error }] *)
Definition try_catch {A} (m : Async A) (h : Error -> Async A) : Async A :=
  andThen m (fun o =>
    match o with
    | Throw e => h e
    | _ => finish o
    end).

(** [try { m } finally { c }] *)
Definition try_finally {A} (m : Async A) (c : Async unit) : Async A :=
  andThen m (fun o =>
    match o with
    | Diverge => finish Diverge
    | _ => andThen c (fun oc =>
             match oc with
             | Ok _ => finish o
             | Throw e => finish (Throw e)
             | Diverge => finish Diverge
             end)
    end).

(** Give up control once: the continuation runs in a later turn. *)
Definition suspend {A} (o : Outcome A) : Async A :=
  fun w => (w, Await (fun w' => (w', Done o))).

(** [await m] for a call [m] of an async method: when the method has
    finished, the caller continues in a later turn. *)
Definition await {A} (m : Async A) : Async A :=
  andThen m (fun o =>
    match o with
    | Diverge => finish Diverge
    | _ => suspend o
    end).

(** [for (const x of xs) { body x }] *)
Fixpoint for_of {A} (xs : list A) (body : A -> Async unit) : Async unit :=
  match xs with
  | [] => pure tt
  | x :: xs' => _ ← body x; for_of xs' body
  end.

(** Run a task to its end with nothing else interleaved. *)
Fixpoint run {A} (t : Task A) (w : World) : World * Outcome A :=
  match t with
  | Done o => (w, o)
  | Await k => let (w', t') := k w in run t' w'
  end.

(** Call a method and run it to its end with nothing else interleaved. *)
Definition exec {A} (m : Async A) (w : World) : World * Outcome A :=
  let (w', t) := m w in run t w'.

(** ** Array helpers *)

(** [l.slice(start, stop)], negative indices counting from the end. *)
Definition slice {A} (l : list A) (start stop : Z) : list A :=
  let len := Z.of_nat (length l) in
  let from := if start <? 0 then Z.max (len + start) 0 else Z.min start len in
  let to := if stop <? 0 then Z.max (len + stop) 0 else Z.min stop len in
  take (Z.to_nat (to - from)) (drop (Z.to_nat from) l).

(** [events.findIndex((e) => e.id === i)], [None] for [-1]. *)
Definition findIndex (i : string) (events : list QueuedEvent)
  : option (nat * QueuedEvent) :=
  list_find (fun e => id e = i) events.

(** [e.retryCount++] *)
Definition incrementRetry (e : QueuedEvent) : QueuedEvent :=
  {| id := id e; timestamp := timestamp e; type := type e; data := data e;
     retryCount := retryCount e + 1; maxRetries := maxRetries e |}.

(** The loop of [createBatches], from index [i]; [None] when the loop has
    not ended after [fuel] rounds. *)
Fixpoint createBatches_from (fuel : nat) (events : list QueuedEvent)
    (batchSize i : Z) : option (list (list QueuedEvent)) :=
  if bool_decide (i < Z.of_nat (length events)) then
    match fuel with
    | O => None
    | S fuel' =>
        cons (slice events i (i + batchSize))
          <$> createBatches_from fuel' events batchSize (i + batchSize)
    end
  else Some [].

(** [createBatches(events, batchSize)].  With [batchSize >= 1] the loop ends
    within [events.length] rounds; with [batchSize <= 0] and a non-empty
    array it never ends, which is [None]. *)
Definition createBatches (events : list QueuedEvent) (batchSize : Z)
  : option (list (list QueuedEvent)) :=
  createBatches_from (length events) events batchSize 0.

(** One round of the loop of [handleUploadFailure] on the local array
    [events]: the array afterwards, and the id logged when the event was
    removed. *)
Definition handleFailedEvent (events : list QueuedEvent)
    (failedEvent : QueuedEvent) : list QueuedEvent * list string :=
  match findIndex (id failedEvent) events with
  | Some (eventIndex, e) =>
      let e' := incrementRetry e in
      if bool_decide (maxRetries e' <= retryCount e')
      then (delete eventIndex events, [id failedEvent])
      else (<[eventIndex := e']> events, [])
  | None => (events, [])
  end.

(** The whole loop of [handleUploadFailure]. *)
Fixpoint handleFailedEvents (events : list QueuedEvent)
    (batch : list QueuedEvent) : list QueuedEvent * list string :=
  match batch with
  | [] => (events, [])
  | failedEvent :: batch' =>
      let (events', removed) := handleFailedEvent events failedEvent in
      let (events'', removed') := handleFailedEvents events' batch' in
      (events'', removed ++ removed')
  end.

(** The array [saveEvent] persists: push, then keep the last 1000. *)
Definition pushCapped (events : list QueuedEvent) (queuedEvent : QueuedEvent)
  : list QueuedEvent :=
  let events := events ++ [queuedEvent] in
  if bool_decide (1000 < length events)%nat
  then drop (length events - 1000) events
  else events.

(** [events.filter((e) => !uploadedIds.has(e.id))] with
    [uploadedIds = new Set(uploadedBatch.map((e) => e.id))]. *)
Definition withoutUploaded (uploadedBatch events : list QueuedEvent)
  : list QueuedEvent :=
  let uploadedIds : gset string := list_to_set (id <$> uploadedBatch) in
  filter (fun e => id e ∉ uploadedIds) events.

(** ** The wire format *)

Definition type_name (t : EventType) : string :=
  match t with
  | crash => "crash"
  | performance => "performance"
  | network => "network"
  | session => "session"
  | custom => "custom"
  end.

(** A queued event as [JSON.stringify] writes it. *)
Definition event_json (e : QueuedEvent) : json :=
  JObj [("id", JStr (id e)); ("timestamp", JNum (timestamp e));
        ("retryCount", JNum (retryCount e));
        ("maxRetries", JNum (maxRetries e));
        ("type", JStr (type_name (type e))); ("data", data e)].

(** [this.config.apiKey && {...}]: an absent or empty key is falsy. *)
Definition apiKey_set (cfg : UploadConfig) : option string :=
  match apiKey cfg with
  | Some key => if bool_decide (key = EmptyString) then None else Some key
  | None => None
  end.

(** The request [uploadBatch] builds for [batch] at time [now]. *)
Definition batch_request (cfg : UploadConfig) (batch : list QueuedEvent)
    (now : Z) : Request :=
  {| url := serverUrl cfg;
     method := "POST";
     body := JObj [("events", JArr (event_json <$> batch));
                   ("timestamp", JNum now)];
     headers :=
       ("Content-Type", "application/json") ::
       match apiKey_set cfg with
       | Some key => [("Authorization", "Bearer " +:+ key)]
       | None => []
       end |}.

(** ** The class [OfflineQueue] *)

Section OfflineQueue.

Variable env : Env.

(** *** What the class calls *)

Definition get {A} (field : World -> A) : Async A :=
  fun w => (w, Done (Ok (field w))).

Definition update (f : World -> World) : Async unit :=
  fun w => (f w, Done (Ok tt)).

Definition console_log (l : LogEntry) : Async unit := update (did_log l).

(** [Date.now()] *)
Definition Date_now : Async Z :=
  fun w => (did_now w, Done (Ok (clock env (nows w)))).

(** [Math.random().toString(36).substr(2, 9)] *)
Definition Math_random36 : Async string :=
  fun w => (did_random w, Done (Ok (random env (randoms w)))).

(** [await AsyncStorage.getItem('events')] *)
Definition AsyncStorage_getItem : Async (option StoredText) :=
  fun w => (w, Await (fun w' =>
    (did_read w',
     Done (if getItem_ok env (reads w') then Ok (disk w')
           else Throw StorageError)))).

(** [await AsyncStorage.setItem('events', JSON.stringify(events))] *)
Definition AsyncStorage_setItem (events : list QueuedEvent) : Async unit :=
  fun w => (w, Await (fun w' =>
    if setItem_ok env (writes w')
    then (did_write (Some (Serialized events)) w', Done (Ok tt))
    else (did_write (disk w') w', Done (Throw StorageError)))).

(** [await AsyncStorage.removeItem('events')] *)
Definition AsyncStorage_removeItem : Async unit :=
  fun w => (w, Await (fun w' =>
    if setItem_ok env (writes w')
    then (did_write None w', Done (Ok tt))
    else (did_write (disk w') w', Done (Throw StorageError)))).

(** [await NetInfo.fetch()], giving [netInfo.isConnected] *)
Definition NetInfo_fetch : Async (option bool) :=
  fun w => (w, Await (fun w' =>
    (did_probe w',
     Done (match netInfo env (probes w') with
           | Some isConnected => Ok isConnected
           | None => Throw NetInfoError
           end)))).

(** [await fetch(url, init)], giving [response.status] *)
Definition fetch (r : Request) : Async Z :=
  fun w => (did_fetch r w, Await (fun w' =>
    (w',
     Done (match server env (length (sent w)) r with
           | Responded status => Ok status
           | Rejected => Throw TransportError
           end)))).

(** [JSON.parse(stored)] *)
Definition JSON_parse (stored : StoredText) : Async (list QueuedEvent) :=
  match stored with
  | Serialized events => pure events
  | Malformed => throw SyntaxError
  end.

(** [clearTimeout(h)] *)
Definition clearTimeout (h : nat) : Async unit :=
  update (fun w => set_timers (filter (fun t => t ≠ h) (timers w)) w).

(** [setTimeout(() => this.uploadEvents(), 2000)], giving the handle *)
Definition setTimeout_upload : Async nat :=
  fun w => let h := S (handles w) in
           (set_timers (timers w ++ [h]) (did_setTimeout w), Done (Ok h)).

(** *** The methods *)

Definition getStoredEvents : Async (list QueuedEvent) :=
  try_catch
    (stored ← AsyncStorage_getItem;
     match stored with
     | Some text => JSON_parse text
     | None => pure []
     end)
    (fun error =>
       _ ← console_log (FailedToGetStored error);
       pure []).

Definition isOnline : Async bool :=
  try_catch
    (isConnected ← NetInfo_fetch;
     pure (default false isConnected))
    (fun error => pure false).

Definition generateEventId : Async string :=
  now ← Date_now;
  r ← Math_random36;
  pure ("event_" +:+ pretty now +:+ "_" +:+ r).

Definition tryUpload : Async unit :=
  pending ← get uploadInterval;
  _ ← match pending with
      | Some h => clearTimeout h
      | None => pure tt
      end;
  h ← setTimeout_upload;
  update (set_uploadInterval (Some h)).

Definition saveEvent (event : NewEvent) : Async unit :=
  try_catch
    (i ← generateEventId;
     now ← Date_now;
     cfg ← get config;
     let queuedEvent :=
       {| id := i; timestamp := now; retryCount := 0;
          maxRetries := config_maxRetries cfg;
          type := new_type event; data := new_data event |} in
     events ← await getStoredEvents;
     _ ← AsyncStorage_setItem (pushCapped events queuedEvent);
     _ ← console_log (EventSaved (type queuedEvent));
     tryUpload)
    (fun error => console_log (FailedToSave error)).

Definition handleUploadFailure (batch : list QueuedEvent) : Async unit :=
  events ← await getStoredEvents;
  let (events', removed) := handleFailedEvents events batch in
  _ ← for_of removed (fun i => console_log (ExceededMaxRetries i));
  AsyncStorage_setItem events'.

Definition removeUploadedEvents (uploadedBatch : list QueuedEvent)
  : Async unit :=
  events ← await getStoredEvents;
  AsyncStorage_setItem (withoutUploaded uploadedBatch events).

Definition uploadBatch (batch : list QueuedEvent) : Async unit :=
  try_catch
    (cfg ← get config;
     now ← Date_now;
     status ← fetch (batch_request cfg batch now);
     if ok status
     then await (removeUploadedEvents batch)
     else throw (UploadFailed status))
    (fun error =>
       _ ← console_log (BatchFailed error);
       await (handleUploadFailure batch)).

(** The [try] block of [uploadEvents], with its [catch]. *)
Definition uploadEvents_try : Async unit :=
  try_catch
    (events ← await getStoredEvents;
     if bool_decide (length events = 0%nat) then pure tt else
     isConnected ← await isOnline;
     if negb isConnected then console_log NoConnection else
     cfg ← get config;
     match createBatches events (batchSize cfg) with
     | None => finish Diverge
     | Some batches =>
         _ ← for_of batches (fun batch => await (uploadBatch batch));
         console_log (Uploaded (length events))
     end)
    (fun error => console_log (FailedToUpload error)).

Definition uploadEvents : Async unit :=
  busy ← get isUploading;
  if busy : bool then pure tt else
  _ ← update (set_isUploading true);
  try_finally uploadEvents_try (update (set_isUploading false)).

Definition getQueueSize : Async nat :=
  events ← await getStoredEvents;
  pure (length events).

Definition clearQueue : Async unit := AsyncStorage_removeItem.

End OfflineQueue.

(** Induction on a task, with the hypothesis for every resumption. *)
Fixpoint Task_resume_ind {A} (P : Task A -> Prop)
    (HDone : forall o, P (Done o))
    (HAwait : forall k, (forall w, P (snd (k w))) -> P (Await k))
    (t : Task A) : P t :=
  match t with
  | Done o => HDone o
  | Await k => HAwait k (fun w => Task_resume_ind P HDone HAwait (snd (k w)))
  end.

(** ** What the statements speak of *)

(** The events [getStoredEvents] sees in a stored item. *)
Definition stored_events (d : option StoredText) : list QueuedEvent :=
  match d with
  | Some (Serialized events) => events
  | _ => []
  end.

(** The storage never fails. *)
Definition storage_ok (env : Env) : Prop :=
  forall n, getItem_ok env n = true /\ setItem_ok env n = true.

(** What [getStoredEvents] returns in [w]: the stored list, or the empty list
    when the read fails or the text does not parse. *)
Definition events_read (env : Env) (w : World) : list QueuedEvent :=
  if getItem_ok env (reads w) then stored_events (disk w) else [].

(** The world after [getStoredEvents]: one more read, and an error line when
    the read or the parse failed. *)
Definition after_read (env : Env) (w : World) : World :=
  if getItem_ok env (reads w) then
    match disk w with
    | Some Malformed => did_log (FailedToGetStored SyntaxError) (did_read w)
    | _ => did_read w
    end
  else did_log (FailedToGetStored StorageError) (did_read w).

(** The event [saveEvent] builds in [w]. *)
Definition queuedEvent_of (env : Env) (w : World) (event : NewEvent)
  : QueuedEvent :=
  {| id := "event_" +:+ pretty (clock env (nows w)) +:+ "_"
             +:+ random env (randoms w);
     timestamp := clock env (S (nows w));
     type := new_type event;
     data := new_data event;
     retryCount := 0;
     maxRetries := config_maxRetries (config w) |}.

(** The evictions [handleUploadFailure] logs, one line per removed event. *)
Definition log_evictions (removed : list string) (w : World) : World :=
  foldl (fun w i => did_log (ExceededMaxRetries i) w) w removed.

(** The last [n] elements of a list. *)
Definition keepLast {A} (n : nat) (l : list A) : list A :=
  drop (length l - n) l.

(** ** Retry accounting, as specified *)


(** What the failure of [batch] does to a stored event [e]: an event whose id
    is in the batch has its [retryCount] raised by 1, every other field as it
    was, and stays only while that is below its own [maxRetries]; any other
    event stays as it is. *)
Definition settle_failed (batch : list QueuedEvent) (e : QueuedEvent)
  : option QueuedEvent :=
  if decide (id e ∈ id <$> batch) then
    if decide (retryCount e + 1 < maxRetries e)
    then Some {| id := id e; timestamp := timestamp e; type := type e;
                 data := data e; retryCount := retryCount e + 1;
                 maxRetries := maxRetries e |}
    else None
  else Some e.

(** ** The retry bound and the operations on the store *)

(** An event within its retry limit; once it has failed, strictly below. *)
Definition within_retries (e : QueuedEvent) : Prop :=
  retryCount e <= maxRetries e /\
  (0 < retryCount e -> retryCount e < maxRetries e).

(** The operations on the store. *)
Inductive QueueOp :=
| OpSaveEvent (event : NewEvent)
| OpRemoveUploaded (uploadedBatch : list QueuedEvent)
| OpUploadFailure (batch : list QueuedEvent)
| OpUploadBatch (batch : list QueuedEvent)
| OpUploadEvents
| OpGetQueueSize
| OpClearQueue.

Definition perform (env : Env) (op : QueueOp) (w : World) : World :=
  match op with
  | OpSaveEvent event => (exec (saveEvent env event) w).1
  | OpRemoveUploaded uploadedBatch =>
      (exec (removeUploadedEvents env uploadedBatch) w).1
  | OpUploadFailure batch => (exec (handleUploadFailure env batch) w).1
  | OpUploadBatch batch => (exec (uploadBatch env batch) w).1
  | OpUploadEvents => (exec (uploadEvents env) w).1
  | OpGetQueueSize => (exec (getQueueSize env) w).1
  | OpClearQueue => (exec (clearQueue env) w).1
  end.

Definition retries_bounded (w : World) : Prop :=
  0 <= config_maxRetries (config w) /\
  Forall within_retries (stored_events (disk w)).

(** ** Invocations interleaved on the event loop *)

(** A task that has returned or thrown; a diverged one never does. *)
Definition returned {A} (t : Task A) : bool :=
  match t with
  | Done (Ok _) | Done (Throw _) => true
  | Done Diverge | Await _ => false
  end.

(** A call of another public method of the queue. *)
Inductive Call :=
| CallSaveEvent (event : NewEvent)
| CallGetQueueSize
| CallClearQueue.

Definition call (env : Env) (c : Call) : Async unit :=
  match c with
  | CallSaveEvent event => saveEvent env event
  | CallGetQueueSize => _ ← getQueueSize env; pure tt
  | CallClearQueue => clearQueue env
  end.

(** An invocation on the event loop: a call of [uploadEvents], with whether
    it found the guard open ([if (this.isUploading) return]), or a call of
    another method. *)
Inductive Activity :=
| Upload (passed_guard : bool) (t : Task unit)
| Other (t : Task unit).

Definition task_of (a : Activity) : Task unit :=
  match a with Upload _ t | Other t => t end.

Definition with_task (a : Activity) (t : Task unit) : Activity :=
  match a with Upload g _ => Upload g t | Other _ => Other t end.

(** An upload run in flight: an [uploadEvents] call that got past the guard
    and has not returned. *)
Definition in_flight (a : Activity) : bool :=
  match a with
  | Upload true t => negb (returned t)
  | _ => false
  end.

Definition runs_in_flight (l : list Activity) : nat :=
  length (filter (fun a => in_flight a = true) l).

Record System := {
  world : World;
  activities : list Activity;
}.

(** One turn of the queue's event loop: a trigger calls [uploadEvents] (the
    debounce timer of [tryUpload], the interval of [startAutoUpload] or a
    manual flush), the application calls another method, or a suspended
    invocation is resumed. *)
Inductive queue_turn (env : Env) : System -> System -> Prop :=
| queue_trigger s :
    queue_turn env s
      {| world := (uploadEvents env (world s)).1;
         activities := activities s ++
           [Upload (negb (isUploading (world s)))
                   (uploadEvents env (world s)).2] |}
| queue_call s c :
    queue_turn env s
      {| world := (call env c (world s)).1;
         activities := activities s ++ [Other (call env c (world s)).2] |}
| queue_resume s i a k :
    activities s !! i = Some a ->
    task_of a = Await k ->
    queue_turn env s
      {| world := (k (world s)).1;
         activities := <[i := with_task a (k (world s)).2]> (activities s) |}.

(** The system after [MobilePulseSDK.configureOfflineQueue]; the invocations
    on the loop stay as they are. *)
Definition reconfigured (uploadConfig : UploadConfig) (s : System) : System :=
  {| world := configureOfflineQueue uploadConfig (world s);
     activities := activities s |}.

(** One turn of the program: a turn of the queue, or
    [MobilePulseSDK.initialize] reconfiguring the shared queue
    ([configureOfflineQueue] runs synchronously, whatever is suspended). *)
Inductive turn (env : Env) : System -> System -> Prop :=
| turn_queue s s' : queue_turn env s s' -> turn env s s'
| turn_configure s uploadConfig : turn env s (reconfigured uploadConfig s).

(** The systems reachable from a queue whose guard is clear and on which
    nothing is running. *)
Inductive reachable (env : Env) : System -> Prop :=
| reachable_start w :
    isUploading w = false ->
    reachable env {| world := w; activities := [] |}
| reachable_turn s s' :
    reachable env s -> turn env s s' -> reachable env s'.

(** The systems reachable when the queue is reconfigured only while no
    upload run is in flight. *)
Inductive reachable_undisturbed (env : Env) : System -> Prop :=
| undisturbed_start w :
    isUploading w = false ->
    reachable_undisturbed env {| world := w; activities := [] |}
| undisturbed_turn s s' :
    reachable_undisturbed env s -> queue_turn env s s' ->
    reachable_undisturbed env s'
| undisturbed_configure s uploadConfig :
    reachable_undisturbed env s ->
    runs_in_flight (activities s) = 0%nat ->
    reachable_undisturbed env (reconfigured uploadConfig s).

(** A task whose every resumption leaves the guard as it is. *)
Fixpoint Neutral {A} (t : Task A) : Prop :=
  match t with
  | Done _ => True
  | Await k =>
      forall w, isUploading (k w).1 = isUploading w /\ Neutral (k w).2
  end.

(** A method that leaves the guard as it is, now and when resumed. *)
Definition Keeps {A} (m : Async A) : Prop :=
  forall w, isUploading (m w).1 = isUploading w /\ Neutral (m w).2.

(** A task that, resumed with the guard set, keeps it set until it returns
    and clears it when it returns. *)
Fixpoint HoldsGuard (t : Task unit) : Prop :=
  match t with
  | Done _ => True
  | Await k =>
      forall w, isUploading w = true ->
        isUploading (k w).1 = negb (returned (k w).2) /\ HoldsGuard (k w).2
  end.

(** What every activity on the loop satisfies. *)
Definition well_behaved (a : Activity) : Prop :=
  match a with
  | Upload true t => HoldsGuard t
  | Upload false t => t = Done (Ok tt)
  | Other t => Neutral t
  end.

(** At most one run is in flight, and none while the guard is clear. *)
Definition single_flight (s : System) : Prop :=
  Forall well_behaved (activities s) /\
  (runs_in_flight (activities s) <= 1)%nat /\
  (isUploading (world s) = false -> runs_in_flight (activities s) = 0%nat).

(** ** Sample environments, events and queues *)

(** An environment in which every storage call fails. *)
Definition env_storage_down : Env :=
  {| getItem_ok := fun _ => false;
     setItem_ok := fun _ => false;
     netInfo := fun _ => Some (Some true);
     server := fun _ _ => Responded 200;
     clock := fun n => 1700000000000 + Z.of_nat n;
     random := fun _ => "k3j9x0a1b" |}.

(** An environment in which every storage call succeeds, the device is
    online and the server accepts everything. *)
Definition env_all_fine : Env :=
  {| getItem_ok := fun _ => true;
     setItem_ok := fun _ => true;
     netInfo := fun _ => Some (Some true);
     server := fun _ _ => Responded 200;
     clock := fun n => 1700000000000 + Z.of_nat n;
     random := fun _ => "k3j9x0a1b" |}.

Definition crash_report : NewEvent :=
  {| new_type := crash; new_data := JObj [("message", JStr "boom")] |}.

Definition custom_event : NewEvent :=
  {| new_type := custom; new_data := JObj [("eventName", JStr "tap")] |}.

(** Three stored events; the second has one retry left. *)
Definition event_a : QueuedEvent :=
  {| id := "event_1700000000000_aaaaaaaaa"; timestamp := 1700000000000;
     type := crash; data := JNull; retryCount := 0; maxRetries := 3 |}.

Definition event_b : QueuedEvent :=
  {| id := "event_1700000000001_bbbbbbbbb"; timestamp := 1700000000001;
     type := network; data := JNull; retryCount := 2; maxRetries := 3 |}.

Definition event_c : QueuedEvent :=
  {| id := "event_1700000000002_ccccccccc"; timestamp := 1700000000002;
     type := custom; data := JNull; retryCount := 0; maxRetries := 3 |}.

Definition three_stored : World :=
  new_OfflineQueue default_config
    (Some (Serialized [event_a; event_b; event_c])).

Definition one_per_batch : UploadConfig :=
  {| serverUrl := "https://collector.example/upload";
     apiKey := Some "secret";
     batchSize := 1;
     config_maxRetries := 3;
     retryDelay := 5000 |}.

(** The server rejects the first request with a 500 and accepts the rest. *)
Definition env_first_fails : Env :=
  {| getItem_ok := fun _ => true;
     setItem_ok := fun _ => true;
     netInfo := fun _ => Some (Some true);
     server := fun n _ => match n with
                          | O => Responded 500
                          | S _ => Responded 200
                          end;
     clock := fun n => 1700000000000 + Z.of_nat n;
     random := fun _ => "k3j9x0a1b" |}.

Definition two_stored : World :=
  new_OfflineQueue one_per_batch (Some (Serialized [event_a; event_c])).

(** The system after one trigger on a queue with three stored events: the
    run is suspended at its first read. *)
Definition one_run_started : System :=
  {| world := (uploadEvents env_first_fails three_stored).1;
     activities :=
       [Upload (negb (isUploading three_stored))
          (uploadEvents env_first_fails three_stored).2] |}.

(** The queue of [one_run_started] reconfigured during that run, and
    [uploadEvents] triggered again. *)
Definition two_runs_started : System :=
  let s := reconfigured one_per_batch one_run_started in
  {| world := (uploadEvents env_first_fails (world s)).1;
     activities :=
       activities s ++
       [Upload (negb (isUploading (world s)))
          (uploadEvents env_first_fails (world s)).2] |}.

(** A queue reconfigured while nothing runs, and [uploadEvents] triggered
    after that. *)
Definition run_started_after_configure : System :=
  let s := reconfigured one_per_batch
             {| world := three_stored; activities := [] |} in
  {| world := (uploadEvents env_first_fails (world s)).1;
     activities :=
       activities s ++
       [Upload (negb (isUploading (world s)))
          (uploadEvents env_first_fails (world s)).2] |}.

(** [event_a] after one failed attempt. *)
Definition event_a_retried : QueuedEvent :=
  {| id := "event_1700000000000_aaaaaaaaa"; timestamp := 1700000000000;
     type := crash; data := JNull; retryCount := 1; maxRetries := 3 |}.

(** The server answers every request with a 503. *)
Definition env_server_down : Env :=
  {| getItem_ok := fun _ => true;
     setItem_ok := fun _ => true;
     netInfo := fun _ => Some (Some true);
     server := fun _ _ => Responded 503;
     clock := fun n => 1700000000000 + Z.of_nat n;
     random := fun _ => "k3j9x0a1b" |}.

(** [n] events appended one after the other to a fresh default queue. *)
Definition appended (env : Env) (n : nat) : World :=
  (exec (for_of (replicate n custom_event)
           (fun event => await (saveEvent env event)))
     (new_OfflineQueue default_config None)).1.

(** ** Event ids, timers, servers and schedules *)

(** A string without the character [c]. *)
Fixpoint lacks (c : ascii) (s : string) : Prop :=
  match s with
  | EmptyString => True
  | String a s' => a <> c /\ lacks c s'
  end.

(** The id [generateEventId] builds from a clock reading and a random
    fragment. *)
Definition eventId (now : Z) (r : string) : string :=
  "event_" +:+ pretty now +:+ "_" +:+ r.

(** The ids of [events] are distinct and were all generated before [w]. *)
Definition ids_generated (env : Env) (w : World) (events : list QueuedEvent)
  : Prop :=
  NoDup (id <$> events) /\
  Forall (fun e => exists i j, (i < nows w)%nat /\ (j < randoms w)%nat /\
                     id e = eventId (clock env i) (random env j)) events.

(** No pending timeout but the one [uploadInterval] holds. *)
Definition debounced (w : World) : Prop :=
  forall t, t ∈ timers w -> uploadInterval w = Some t.






(** Something the application or the event loop does next. *)
Inductive Action :=
| Trigger
| Start (c : Call)
| Resume (i : nat).

(** The turn an action takes; resuming what is not suspended does nothing. *)
Definition act (env : Env) (a : Action) (s : System) : System :=
  match a with
  | Trigger =>
      {| world := (uploadEvents env (world s)).1;
         activities := activities s ++
           [Upload (negb (isUploading (world s)))
                   (uploadEvents env (world s)).2] |}
  | Start c =>
      {| world := (call env c (world s)).1;
         activities := activities s ++ [Other (call env c (world s)).2] |}
  | Resume i =>
      match activities s !! i with
      | Some a =>
          match task_of a with
          | Await k =>
              {| world := (k (world s)).1;
                 activities :=
                   <[i := with_task a (k (world s)).2]> (activities s) |}
          | Done _ => s
          end
      | None => s
      end
  end.

(** A schedule, played from [s]. *)
Definition play (env : Env) (schedule : list Action) (s : System) : System :=
  foldl (fun s a => act env a s) s schedule.

(** ** More sample environments and queues *)

(** A configuration whose batch size is zero. *)
Definition zero_batch : UploadConfig :=
  {| serverUrl := "https://collector.example/upload";
     apiKey := None;
     batchSize := 0;
     config_maxRetries := 3;
     retryDelay := 5000 |}.

Definition one_stored_zero_batch : World :=
  new_OfflineQueue zero_batch (Some (Serialized [event_a])).

(** The device is offline. *)
Definition env_offline : Env :=
  {| getItem_ok := fun _ => true;
     setItem_ok := fun _ => true;
     netInfo := fun _ => Some (Some false);
     server := fun _ _ => Responded 200;
     clock := fun n => 1700000000000 + Z.of_nat n;
     random := fun _ => "k3j9x0a1b" |}.

(** Every read of the storage fails, every write succeeds. *)
Definition env_reads_fail : Env :=
  {| getItem_ok := fun _ => false;
     setItem_ok := fun _ => true;
     netInfo := fun _ => Some (Some true);
     server := fun _ _ => Responded 200;
     clock := fun n => 1700000000000 + Z.of_nat n;
     random := fun _ => "k3j9x0a1b" |}.

(** Every read of the storage succeeds, every write fails. *)
Definition env_writes_fail : Env :=
  {| getItem_ok := fun _ => true;
     setItem_ok := fun _ => false;
     netInfo := fun _ => Some (Some true);
     server := fun _ _ => Responded 200;
     clock := fun n => 1700000000000 + Z.of_nat n;
     random := fun _ => "k3j9x0a1b" |}.

(** The first write of the storage fails, the later ones succeed. *)
Definition env_first_write_fails : Env :=
  {| getItem_ok := fun _ => true;
     setItem_ok := fun n => match n with O => false | S _ => true end;
     netInfo := fun _ => Some (Some true);
     server := fun _ _ => Responded 200;
     clock := fun n => 1700000000000 + Z.of_nat n;
     random := fun _ => "k3j9x0a1b" |}.

(** * Properties *)

(** ** Reasoning about tasks *)

Lemma run_resume {A B} (t : Task A) (f : Outcome A -> Async B) (w : World) :
  (let (w1, t1) := resume t f w in run t1 w1)
  = let (w', o) := run t w in exec (f o) w'.
Proof.
  revert w. induction t as [o|k IH] using Task_resume_ind; intros w.
  - reflexivity.
  - simpl. specialize (IH w). destruct (k w) as [w' t']. exact (IH _).
Qed.

Lemma exec_andThen {A B} (m : Async A) (f : Outcome A -> Async B) w :
  exec (andThen m f) w = let (w', o) := exec m w in exec (f o) w'.
Proof.
  unfold exec at 1 2, andThen. destruct (m w) as [w1 t]. apply run_resume.
Qed.

Lemma exec_finish {A} (o : Outcome A) w : exec (finish o) w = (w, o).
Proof. reflexivity. Qed.

Lemma exec_pure {A} (a : A) w : exec (pure a) w = (w, Ok a).
Proof. reflexivity. Qed.

Lemma exec_bind {A B} (m : Async A) (f : A -> Async B) w :
  exec (m ≫= f) w =
  match exec m w with
  | (w', Ok a) => exec (f a) w'
  | (w', Throw e) => (w', Throw e)
  | (w', Diverge) => (w', Diverge)
  end.
Proof.
  unfold mbind, Async_bind, bind. rewrite exec_andThen.
  destruct (exec m w) as [w' [a|e|]]; reflexivity.
Qed.

Lemma exec_try_catch {A} (m : Async A) (h : Error -> Async A) w :
  exec (try_catch m h) w =
  match exec m w with
  | (w', Throw e) => exec (h e) w'
  | r => r
  end.
Proof.
  unfold try_catch. rewrite exec_andThen.
  destruct (exec m w) as [w' [a|e|]]; reflexivity.
Qed.

Lemma exec_try_finally {A} (m : Async A) (c : Async unit) w :
  exec (try_finally m c) w =
  match exec m w with
  | (w', Diverge) => (w', Diverge)
  | (w', o) =>
      match exec c w' with
      | (w'', Ok _) => (w'', o)
      | (w'', Throw e) => (w'', Throw e)
      | (w'', Diverge) => (w'', Diverge)
      end
  end.
Proof.
  unfold try_finally. rewrite exec_andThen.
  destruct (exec m w) as [w' [a|e|]]; try reflexivity;
    rewrite exec_andThen; destruct (exec c w') as [w'' [[]|e'|]]; reflexivity.
Qed.

Lemma exec_await {A} (m : Async A) w : exec (await m) w = exec m w.
Proof.
  unfold await. rewrite exec_andThen.
  destruct (exec m w) as [w' [a|e|]]; reflexivity.
Qed.

Lemma exec_get {A} (field : World -> A) w : exec (get field) w = (w, Ok (field w)).
Proof. reflexivity. Qed.

Lemma exec_update (f : World -> World) w : exec (update f) w = (f w, Ok tt).
Proof. reflexivity. Qed.

(** ** Running the calls and methods alone *)

Lemma exec_Date_now env w :
  exec (Date_now env) w = (did_now w, Ok (clock env (nows w))).
Proof. reflexivity. Qed.

Lemma exec_Math_random36 env w :
  exec (Math_random36 env) w = (did_random w, Ok (random env (randoms w))).
Proof. reflexivity. Qed.

Lemma exec_getItem env w :
  exec (AsyncStorage_getItem env) w =
  (did_read w,
   if getItem_ok env (reads w) then Ok (disk w) else Throw StorageError).
Proof. reflexivity. Qed.

Lemma exec_setItem env events w :
  exec (AsyncStorage_setItem env events) w =
  if setItem_ok env (writes w)
  then (did_write (Some (Serialized events)) w, Ok tt)
  else (did_write (disk w) w, Throw StorageError).
Proof. unfold exec. simpl. destruct (setItem_ok env (writes w)); reflexivity. Qed.

Lemma exec_removeItem env w :
  exec (AsyncStorage_removeItem env) w =
  if setItem_ok env (writes w)
  then (did_write None w, Ok tt)
  else (did_write (disk w) w, Throw StorageError).
Proof. unfold exec. simpl. destruct (setItem_ok env (writes w)); reflexivity. Qed.

Lemma exec_NetInfo_fetch env w :
  exec (NetInfo_fetch env) w =
  (did_probe w,
   match netInfo env (probes w) with
   | Some isConnected => Ok isConnected
   | None => Throw NetInfoError
   end).
Proof. reflexivity. Qed.

Lemma exec_fetch env r w :
  exec (fetch env r) w =
  (did_fetch r w,
   match server env (length (sent w)) r with
   | Responded status => Ok status
   | Rejected => Throw TransportError
   end).
Proof. reflexivity. Qed.

Lemma exec_console_log l w : exec (console_log l) w = (did_log l w, Ok tt).
Proof. reflexivity. Qed.

Lemma exec_throw {A} e w : exec (@throw A e) w = (w, Throw e).
Proof. reflexivity. Qed.

Lemma exec_for_of_nil {A} (body : A -> Async unit) w :
  exec (for_of [] body) w = (w, Ok tt).
Proof. reflexivity. Qed.

Lemma exec_for_of_cons {A} (x : A) xs (body : A -> Async unit) w :
  exec (for_of (x :: xs) body) w =
  match exec (body x) w with
  | (w', Ok _) => exec (for_of xs body) w'
  | (w', Throw e) => (w', Throw e)
  | (w', Diverge) => (w', Diverge)
  end.
Proof. simpl for_of. apply exec_bind. Qed.

Create Rewrite HintDb exec.
#[local] Hint Rewrite @exec_bind @exec_try_catch @exec_try_finally @exec_await
  @exec_get @exec_update @exec_pure @exec_finish @exec_throw
  exec_Date_now exec_Math_random36 exec_getItem exec_setItem exec_removeItem
  exec_NetInfo_fetch exec_fetch exec_console_log
  @exec_for_of_nil @exec_for_of_cons : exec.

Lemma exec_getStoredEvents env w :
  exec (getStoredEvents env) w = (after_read env w, Ok (events_read env w)).
Proof.
  unfold getStoredEvents, after_read, events_read. autorewrite with exec.
  destruct (getItem_ok env (reads w)); [destruct (disk w) as [[l|]|]|];
    reflexivity.
Qed.
#[local] Hint Rewrite exec_getStoredEvents : exec.

(** [getStoredEvents] changes nothing but the read count and the console. *)
Lemma after_read_frame env w :
  config (after_read env w) = config w /\
  isUploading (after_read env w) = isUploading w /\
  uploadInterval (after_read env w) = uploadInterval w /\
  disk (after_read env w) = disk w /\
  timers (after_read env w) = timers w /\
  sent (after_read env w) = sent w /\
  reads (after_read env w) = S (reads w) /\
  writes (after_read env w) = writes w /\
  probes (after_read env w) = probes w /\
  nows (after_read env w) = nows w /\
  randoms (after_read env w) = randoms w /\
  handles (after_read env w) = handles w.
Proof.
  unfold after_read. repeat case_match; repeat split; simpl; congruence.
Qed.

Lemma exec_tryUpload w :
  exists w', exec tryUpload w = (w', Ok tt) /\
    config w' = config w /\ isUploading w' = isUploading w /\
    disk w' = disk w /\ sent w' = sent w /\ console w' = console w /\
    reads w' = reads w /\ writes w' = writes w /\ probes w' = probes w /\
    nows w' = nows w /\ randoms w' = randoms w /\
    uploadInterval w' = Some (S (handles w)) /\ S (handles w) ∈ timers w'.
Proof.
  unfold tryUpload, clearTimeout, setTimeout_upload. autorewrite with exec.
  destruct (uploadInterval w); autorewrite with exec; unfold exec; simpl;
    (eexists; split; [reflexivity|]); simpl; repeat split; try reflexivity;
    apply elem_of_app; right; constructor.
Qed.

(** [saveEvent] run alone: it always returns normally; when the write
    succeeds the item holds what was read, plus the new event, capped, and the
    debounce timer is armed; when the write fails nothing but the counters
    and the console changes. *)
Lemma saveEvent_spec env ev w :
  exists w', exec (saveEvent env ev) w = (w', Ok tt) /\
    config w' = config w /\ isUploading w' = isUploading w /\
    sent w' = sent w /\
    reads w' = S (reads w) /\ writes w' = S (writes w) /\
    probes w' = probes w /\
    if setItem_ok env (writes w)
    then disk w' = Some (Serialized
           (pushCapped (events_read env w) (queuedEvent_of env w ev))) /\
         uploadInterval w' = Some (S (handles w)) /\
         S (handles w) ∈ timers w'
    else disk w' = disk w /\ timers w' = timers w /\
         uploadInterval w' = uploadInterval w /\
         handles w' = handles w /\
         console w' = console (after_read env w) ++ [FailedToSave StorageError].
Proof.
  unfold saveEvent, generateEventId. autorewrite with exec.
  set (w1 := did_now (did_random (did_now w))).
  destruct (after_read_frame env w1) as (?&?&?&?&?&?&?&?&?&?&?&?).
  replace (writes (after_read env w1)) with (writes w) by done.
  change (events_read env w1) with (events_read env w).
  destruct (setItem_ok env (writes w)) eqn:Hw; autorewrite with exec.
  - match goal with
    | |- context [exec tryUpload ?x] =>
        destruct (exec_tryUpload x) as (w'&->&?&?&?&?&?&?&?&?&?&?&?&?)
    end.
    exists w'. split; [reflexivity|]. simpl in *.
    repeat split; try congruence; try assumption.
  - eexists; split; [reflexivity|]. simpl in *.
    repeat split; try congruence.
    f_equal. unfold after_read; simpl; repeat case_match; simpl in *; congruence.
Qed.

(** [removeUploadedEvents] run alone. *)
Lemma exec_removeUploadedEvents env uploadedBatch w :
  exec (removeUploadedEvents env uploadedBatch) w =
  if setItem_ok env (writes w)
  then (did_write
          (Some (Serialized (withoutUploaded uploadedBatch (events_read env w))))
          (after_read env w), Ok tt)
  else (did_write (disk w) (after_read env w), Throw StorageError).
Proof.
  unfold removeUploadedEvents. autorewrite with exec.
  destruct (after_read_frame env w) as (?&?&?&Hd&?&?&?&Hw&?).
  rewrite Hw, Hd. destruct (setItem_ok env (writes w)); reflexivity.
Qed.

Lemma exec_log_evictions removed w :
  exec (for_of removed (fun i => console_log (ExceededMaxRetries i))) w
  = (log_evictions removed w, Ok tt).
Proof.
  revert w. induction removed as [|i removed IH]; intros w;
    autorewrite with exec; [reflexivity | apply IH].
Qed.

Lemma log_evictions_frame removed w :
  config (log_evictions removed w) = config w /\
  isUploading (log_evictions removed w) = isUploading w /\
  disk (log_evictions removed w) = disk w /\
  sent (log_evictions removed w) = sent w /\
  reads (log_evictions removed w) = reads w /\
  writes (log_evictions removed w) = writes w /\
  probes (log_evictions removed w) = probes w /\
  nows (log_evictions removed w) = nows w.
Proof.
  revert w. induction removed as [|i removed IH]; intros w; simpl; [done|].
  destruct (IH (did_log (ExceededMaxRetries i) w)) as (?&?&?&?&?&?&?&?).
  repeat split; simpl in *; congruence.
Qed.

(** [handleUploadFailure] run alone. *)
Lemma exec_handleUploadFailure env batch w :
  let result := handleFailedEvents (events_read env w) batch in
  let w1 := log_evictions result.2 (after_read env w) in
  exec (handleUploadFailure env batch) w =
  if setItem_ok env (writes w)
  then (did_write (Some (Serialized result.1)) w1, Ok tt)
  else (did_write (disk w) w1, Throw StorageError).
Proof.
  unfold handleUploadFailure. autorewrite with exec.
  destruct (handleFailedEvents (events_read env w) batch) as [events' removed].
  simpl. autorewrite with exec. rewrite exec_log_evictions.
  autorewrite with exec.
  destruct (log_evictions_frame removed (after_read env w))
    as (?&?&Hd&?&?&Hw&?).
  destruct (after_read_frame env w) as (?&?&?&Hd'&?&?&?&Hw'&?).
  rewrite Hw, Hw', Hd, Hd'. destruct (setItem_ok env (writes w)); reflexivity.
Qed.

(** ** The capacity of the store *)

Lemma pushCapped_keepLast events e :
  pushCapped events e = keepLast 1000 (events ++ [e]).
Proof.
  unfold pushCapped, keepLast. case_bool_decide as H; [reflexivity|].
  replace (length (events ++ [e]) - 1000)%nat with 0%nat by lia.
  reflexivity.
Qed.




Lemma saveEvent_stored env event w :
  storage_ok env ->
  let w' := (exec (saveEvent env event) w).1 in
  config w' = config w /\
  stored_events (disk w') =
    keepLast 1000 (stored_events (disk w) ++ [queuedEvent_of env w event]).
Proof.
  intros Hok.
  destruct (saveEvent_spec env event w) as (w'&->&Hc&_&_&_&_&_&Hd). simpl.
  split; [exact Hc|].
  destruct (Hok (writes w)) as [_ Hw]. rewrite Hw in Hd.
  destruct Hd as (->&_). simpl.
  rewrite pushCapped_keepLast. unfold events_read.
  destruct (Hok (reads w)) as [-> _]. reflexivity.
Qed.




(** A store at its capacity: each of two appends drops the oldest event. *)
Example scenario_two_appends_at_capacity :
  let w := appended env_all_fine 1000 in
  let w' :=
    (exec (for_of [crash_report; custom_event]
             (fun event => await (saveEvent env_all_fine event))) w).1 in
  length (stored_events (disk w)) = 1000%nat /\
  length (stored_events (disk w')) = 1000%nat /\
  head (stored_events (disk w')) = stored_events (disk w) !! 2%nat /\
  type <$> drop 998 (stored_events (disk w')) = [crash; custom].
Proof. vm_compute. repeat split; reflexivity. Qed.

(** ** Storage failures *)

(** C10. A failed read, or stored text that does not parse, makes
    [getStoredEvents] return the empty list rather than fail; a [saveEvent]
    in that situation whose write succeeds then persists just the new event,
    whatever was stored before. *)
Theorem getStoredEvents_failure_reads_empty env event w :
  getItem_ok env (reads w) = false \/ disk w = Some Malformed ->
  (exec (getStoredEvents env) w).2 = Ok [] /\
  (setItem_ok env (writes w) = true ->
   disk (exec (saveEvent env event) w).1
   = Some (Serialized [queuedEvent_of env w event])).
Proof.
  intros Hfail.
  assert (Hread : events_read env w = []).
  { unfold events_read. destruct Hfail as [-> | ->]; [reflexivity|].
    destruct (getItem_ok env (reads w)); reflexivity. }
  split.
  - rewrite exec_getStoredEvents. simpl. rewrite Hread. reflexivity.
  - intros Hw.
    destruct (saveEvent_spec env event w) as (w'&->&_&_&_&_&_&_&Hd).
    rewrite Hw, Hread in Hd. destruct Hd as (Hd&_). exact Hd.
Qed.

Lemma getStoredEvents_failure_reads_empty_witness :
  let w := new_OfflineQueue default_config
             (Some (Serialized [queuedEvent_of env_all_fine
                                  (new_OfflineQueue default_config None)
                                  crash_report])) in
  let env := {| getItem_ok := fun _ => false;
                setItem_ok := fun _ => true;
                netInfo := netInfo env_all_fine;
                server := server env_all_fine;
                clock := clock env_all_fine;
                random := random env_all_fine |} in
  (exec (getStoredEvents env) w).2 = Ok [] /\
  disk (exec (saveEvent env custom_event) w).1
  = Some (Serialized [queuedEvent_of env w custom_event]).
Proof.
  intros w env.
  destruct (getStoredEvents_failure_reads_empty env custom_event w
              (or_introl eq_refl)) as [H1 H2].
  split; [exact H1 | exact (H2 eq_refl)].
Defined.

(** C9, as the code has it. When the write of a [saveEvent] fails, the
    append is given up: the stored item is as before, the write was tried
    once, no upload is scheduled, and the error is caught and logged, so
    [saveEvent] returns normally and the caller is not told. *)
Theorem saveEvent_write_failure_is_swallowed env event w :
  setItem_ok env (writes w) = false ->
  let w' := (exec (saveEvent env event) w).1 in
  (exec (saveEvent env event) w).2 = Ok tt /\
  disk w' = disk w /\
  writes w' = S (writes w) /\
  timers w' = timers w /\
  uploadInterval w' = uploadInterval w /\
  handles w' = handles w /\
  last (console w') = Some (FailedToSave StorageError).
Proof.
  intros Hw.
  destruct (saveEvent_spec env event w) as (w'&->&_&_&_&_&Hws&_&Hd).
  rewrite Hw in Hd. destruct Hd as (Hd&Ht&Hu&Hh&Hc). simpl.
  repeat split; try assumption. rewrite Hc. apply last_snoc.
Qed.

Lemma saveEvent_write_failure_is_swallowed_witness :
  let w := new_OfflineQueue default_config None in
  let w' := (exec (saveEvent env_storage_down crash_report) w).1 in
  (exec (saveEvent env_storage_down crash_report) w).2 = Ok tt /\
  disk w' = disk w /\
  writes w' = S (writes w) /\
  timers w' = timers w /\
  uploadInterval w' = uploadInterval w /\
  handles w' = handles w /\
  last (console w') = Some (FailedToSave StorageError).
Proof.
  exact (saveEvent_write_failure_is_swallowed env_storage_down crash_report
           (new_OfflineQueue default_config None) eq_refl).
Defined.

(** C9 as stated fails: with the storage down, [saveEvent] does not end in a
    [StorageError]; it returns normally. *)
Lemma saveEvent_storage_error_not_reported :
  let w := new_OfflineQueue default_config None in
  getItem_ok env_storage_down (reads w) = false /\
  setItem_ok env_storage_down (writes w) = false /\
  (exec (saveEvent env_storage_down crash_report) w).2 = Ok tt /\
  (exec (saveEvent env_storage_down crash_report) w).2 <> Throw StorageError.
Proof.
  intros w. split; [reflexivity|]. split; [reflexivity|].
  destruct (saveEvent_spec env_storage_down crash_report w) as (w'&->&_).
  split; [reflexivity | discriminate].
Qed.

(** ** Flushing an empty store *)

(** C6. [uploadEvents] on a store in which [getStoredEvents] finds nothing
    issues no request and no connectivity probe, writes nothing, leaves the
    stored item and the guard as they were, and returns normally. *)
Theorem uploadEvents_empty_store_is_noop env w :
  stored_events (disk w) = [] ->
  let w' := (exec (uploadEvents env) w).1 in
  (exec (uploadEvents env) w).2 = Ok tt /\
  sent w' = sent w /\
  disk w' = disk w /\
  writes w' = writes w /\
  probes w' = probes w /\
  isUploading w' = isUploading w.
Proof.
  intros Hempty. unfold uploadEvents, uploadEvents_try.
  autorewrite with exec.
  destruct (isUploading w) eqn:Hbusy; autorewrite with exec.
  - simpl. repeat split. exact Hbusy.
  - assert (Hread : events_read env (set_isUploading true w) = []).
    { unfold events_read. simpl. rewrite Hempty.
      destruct (getItem_ok env (reads w)); reflexivity. }
    rewrite Hread. simpl. autorewrite with exec. simpl.
    destruct (after_read_frame env (set_isUploading true w))
      as (?&?&?&?&?&?&?&?&?&?).
    repeat split; simpl in *; congruence.
Qed.

Lemma uploadEvents_empty_store_is_noop_witness :
  let w := new_OfflineQueue default_config None in
  let w' := (exec (uploadEvents env_all_fine) w).1 in
  (exec (uploadEvents env_all_fine) w).2 = Ok tt /\
  sent w' = sent w /\
  disk w' = disk w /\
  writes w' = writes w /\
  probes w' = probes w /\
  isUploading w' = isUploading w.
Proof.
  exact (uploadEvents_empty_store_is_noop env_all_fine
           (new_OfflineQueue default_config None) eq_refl).
Defined.

(** ** Removing uploaded events *)


(** ** Retry accounting *)










(** Why the ids of the batch must differ: [findIndex] finds the same stored
    event for both, which then gets two retries. *)
Example same_id_twice_in_batch :
  retryCount <$> (handleFailedEvents [event_a] [event_a; event_a]).1 = [2].
Proof. vm_compute. reflexivity. Qed.

Example settle_failed_example :
  omap (settle_failed [event_a; event_b]) [event_a; event_b; event_c]
  = [event_a_retried; event_c].
Proof. vm_compute. reflexivity. Qed.

(** ** One batch *)

(** [uploadBatch] run alone. *)
Lemma exec_uploadBatch env batch w :
  let request := batch_request (config w) batch (clock env (nows w)) in
  let w1 := did_fetch request (did_now w) in
  exec (uploadBatch env batch) w =
  match
    match server env (length (sent w)) request with
    | Responded status =>
        if ok status then exec (removeUploadedEvents env batch) w1
        else (w1, Throw (UploadFailed status))
    | Rejected => (w1, Throw TransportError)
    end
  with
  | (w2, Throw error) =>
      exec (handleUploadFailure env batch) (did_log (BatchFailed error) w2)
  | r => r
  end.
Proof.
  unfold uploadBatch. autorewrite with exec. simpl.
  destruct (server env (length (sent w)) _) as [status|];
    [destruct (ok status)|]; autorewrite with exec; try reflexivity.
  destruct (exec (removeUploadedEvents env batch) _) as [w2 [[]|e|]];
    autorewrite with exec; reflexivity.
Qed.

(** What [removeUploadedEvents] and [handleUploadFailure] leave alone. *)
Lemma removeUploadedEvents_frame env batch w :
  let w' := (exec (removeUploadedEvents env batch) w).1 in
  config w' = config w /\ isUploading w' = isUploading w /\
  sent w' = sent w /\ probes w' = probes w /\ nows w' = nows w.
Proof.
  rewrite exec_removeUploadedEvents.
  destruct (after_read_frame env w) as (?&?&?&?&?&?&?&?&?&?&?).
  destruct (setItem_ok env (writes w)); simpl; repeat split; assumption.
Qed.

Lemma handleUploadFailure_frame env batch w :
  let w' := (exec (handleUploadFailure env batch) w).1 in
  config w' = config w /\ isUploading w' = isUploading w /\
  sent w' = sent w /\ probes w' = probes w /\ nows w' = nows w.
Proof.
  rewrite exec_handleUploadFailure. simpl.
  destruct (after_read_frame env w) as (?&?&?&?&?&?&?&?&?&?&?).
  destruct (log_evictions_frame
              (handleFailedEvents (events_read env w) batch).2
              (after_read env w)) as (?&?&?&?&?&?&?&?).
  destruct (setItem_ok env (writes w)); simpl; repeat split; congruence.
Qed.

(** [uploadBatch] issues exactly one request, in every case. *)
Lemma uploadBatch_frame env batch w :
  let w' := (exec (uploadBatch env batch) w).1 in
  config w' = config w /\ isUploading w' = isUploading w /\
  probes w' = probes w /\ nows w' = S (nows w) /\
  sent w' = sent w
            ++ [batch_request (config w) batch (clock env (nows w))].
Proof.
  rewrite exec_uploadBatch. simpl.
  set (request := batch_request _ _ _). set (w1 := did_fetch _ _).
  assert (Hfail : forall error w2,
            config w2 = config w -> isUploading w2 = isUploading w ->
            probes w2 = probes w -> nows w2 = S (nows w) ->
            sent w2 = sent w ++ [request] ->
            let w' := (exec (handleUploadFailure env batch)
                         (did_log (BatchFailed error) w2)).1 in
            config w' = config w /\ isUploading w' = isUploading w /\
            probes w' = probes w /\ nows w' = S (nows w) /\
            sent w' = sent w ++ [request]).
  { intros error w2 ? ? ? ? ?.
    destruct (handleUploadFailure_frame env batch
                (did_log (BatchFailed error) w2)) as (?&?&?&?&?).
    simpl in *. repeat split; congruence. }
  destruct (server env (length (sent w)) request) as [status|].
  - destruct (ok status).
    + destruct (removeUploadedEvents_frame env batch w1) as (?&?&?&?&?).
      destruct (exec (removeUploadedEvents env batch) w1) as [w2 [[]|e|]];
        simpl in *; try (repeat split; congruence).
      apply Hfail; assumption.
    + apply Hfail; reflexivity.
  - apply Hfail; reflexivity.
Qed.

(** C7. The request of a batch delivery: [uploadBatch] issues exactly one
    request, a POST to the configured URL with the JSON content type, the
    bearer authorization exactly when [apiKey] is set (present and not the
    empty string), and as body the object with the batch's events, each with
    its six fields, and the current time. *)
Theorem uploadBatch_wire_format env batch w :
  sent (exec (uploadBatch env batch) w).1 =
  sent w ++
  [ {| url := serverUrl (config w);
       method := "POST";
       headers :=
         ("Content-Type", "application/json") ::
         match apiKey (config w) with
         | Some key =>
             if bool_decide (key = EmptyString) then []
             else [("Authorization", "Bearer " +:+ key)]
         | None => []
         end;
       body :=
         JObj [("events",
                JArr ((fun e =>
                         JObj [("id", JStr (id e));
                               ("timestamp", JNum (timestamp e));
                               ("retryCount", JNum (retryCount e));
                               ("maxRetries", JNum (maxRetries e));
                               ("type", JStr (type_name (type e)));
                               ("data", data e)]) <$> batch));
               ("timestamp", JNum (clock env (nows w)))] |} ].
Proof.
  destruct (uploadBatch_frame env batch w) as (_&_&_&_&->).
  unfold batch_request, apiKey_set. do 3 f_equal.
  destruct (apiKey (config w)) as [key|]; [|reflexivity].
  destruct (bool_decide (key = EmptyString)); reflexivity.
Qed.




Example removal_example :
  filter (fun e => id e ∉ id <$> [event_a; event_b])
    [event_a; event_b; event_c] = [event_c].
Proof. vm_compute. reflexivity. Qed.

(** ** Batches *)

Lemma slice_take_drop {A} (l : list A) (i n : Z) :
  0 <= i -> 0 < n -> i < Z.of_nat (length l) ->
  slice l i (i + n) = take (Z.to_nat n) (drop (Z.to_nat i) l).
Proof.
  intros Hi Hn Hlt. unfold slice.
  replace (i <? 0) with false by (symmetry; apply Z.ltb_ge; lia).
  replace (i + n <? 0) with false by (symmetry; apply Z.ltb_ge; lia).
  rewrite (Z.min_l i) by lia.
  destruct (decide (i + n <= Z.of_nat (length l))) as [Hle|Hgt].
  - rewrite Z.min_l by lia. f_equal. lia.
  - rewrite Z.min_r by lia.
    rewrite !take_ge; [reflexivity| |]; rewrite length_drop; lia.
Qed.

Lemma createBatches_from_some fuel (events : list QueuedEvent) batchSize i :
  0 < batchSize -> 0 <= i ->
  (length events - Z.to_nat i <= fuel)%nat ->
  exists batches,
    createBatches_from fuel events batchSize i = Some batches /\
    concat batches = drop (Z.to_nat i) events.
Proof.
  intros Hbs. revert i. induction fuel as [|fuel IH]; intros i Hi Hfuel.
  - simpl. case_bool_decide as Hlt; [lia|].
    exists []. split; [reflexivity|]. rewrite drop_ge by lia. reflexivity.
  - simpl. case_bool_decide as Hlt.
    + destruct (IH (i + batchSize)) as (batches&->&Hc); [lia|lia|].
      eexists. split; [reflexivity|]. simpl. rewrite Hc.
      rewrite slice_take_drop by lia.
      replace (Z.to_nat (i + batchSize))
        with (Z.to_nat i + Z.to_nat batchSize)%nat by lia.
      rewrite <- drop_drop. apply take_drop.
    + exists []. split; [reflexivity|]. rewrite drop_ge by lia. reflexivity.
Qed.

(** With a batch size of at least one, [createBatches] returns, and its
    batches are the events in order. *)
Lemma createBatches_some (events : list QueuedEvent) batchSize :
  0 < batchSize ->
  exists batches,
    createBatches events batchSize = Some batches /\
    concat batches = events.
Proof.
  intros Hbs.
  destruct (createBatches_from_some (length events) events batchSize 0)
    as (batches&H1&H2); [lia|lia|simpl; lia|].
  exists batches. split; assumption.
Qed.

(** With a batch size of zero or less and something to send, the loop of
    [createBatches] never ends. *)
Lemma createBatches_diverges (events : list QueuedEvent) batchSize :
  batchSize <= 0 -> events <> [] ->
  createBatches events batchSize = None.
Proof.
  intros Hbs Hne. unfold createBatches.
  assert (H : forall fuel i, i <= 0 ->
            createBatches_from fuel events batchSize i = None).
  { induction fuel as [|fuel IH]; intros i Hi; simpl.
    - rewrite bool_decide_eq_true_2; [reflexivity|].
      destruct events; [done|simpl; lia].
    - rewrite bool_decide_eq_true_2 by (destruct events; [done|simpl; lia]).
      rewrite IH by lia. reflexivity. }
  apply H. lia.
Qed.

Lemma exec_isOnline env w :
  exec (isOnline env) w =
  (did_probe w,
   Ok match netInfo env (probes w) with
      | Some isConnected => default false isConnected
      | None => false
      end).
Proof.
  unfold isOnline. autorewrite with exec.
  destruct (netInfo env (probes w)); reflexivity.
Qed.

(** [uploadEvents] run alone. *)
Lemma exec_uploadEvents env w :
  exec (uploadEvents env) w =
  if isUploading w then (w, Ok tt) else
  let w0 := after_read env (set_isUploading true w) in
  let events := events_read env w in
  if bool_decide (length events = 0%nat)
  then (set_isUploading false w0, Ok tt) else
  let w1 := did_probe w0 in
  if negb match netInfo env (probes w) with
          | Some isConnected => default false isConnected
          | None => false
          end
  then (set_isUploading false (did_log NoConnection w1), Ok tt) else
  match createBatches events (batchSize (config w)) with
  | None => (w1, Diverge)
  | Some batches =>
      match exec (for_of batches (fun batch => await (uploadBatch env batch)))
              w1 with
      | (w2, Ok _) =>
          (set_isUploading false (did_log (Uploaded (length events)) w2),
           Ok tt)
      | (w2, Throw error) =>
          (set_isUploading false (did_log (FailedToUpload error) w2), Ok tt)
      | (w2, Diverge) => (w2, Diverge)
      end
  end.
Proof.
  unfold uploadEvents, uploadEvents_try. autorewrite with exec.
  destruct (isUploading w); autorewrite with exec; [reflexivity|].
  change (events_read env (set_isUploading true w)) with (events_read env w).
  destruct (after_read_frame env (set_isUploading true w))
    as (Hc&_&_&_&_&_&_&_&Hp&_).
  simpl in Hc, Hp.
  case_bool_decide; autorewrite with exec; [reflexivity|].
  rewrite exec_isOnline. rewrite Hp.
  destruct (negb _); autorewrite with exec; [reflexivity|].
  simpl config. rewrite Hc.
  destruct (createBatches _ _) as [batches|]; autorewrite with exec;
    [|reflexivity].
  destruct (exec (for_of batches _) _) as [w2 [[]|e|]];
    autorewrite with exec; reflexivity.
Qed.

(** ** A whole run *)

(** While writes succeed, [uploadBatch] returns normally, whatever the
    server answers. *)
Lemma uploadBatch_returns env batch w :
  (forall n, setItem_ok env n = true) ->
  (exec (uploadBatch env batch) w).2 = Ok tt.
Proof.
  intros Hw. rewrite exec_uploadBatch. simpl.
  assert (Hfail : forall error w2,
            (exec (handleUploadFailure env batch)
               (did_log (BatchFailed error) w2)).2 = Ok tt).
  { intros error w2. rewrite exec_handleUploadFailure. simpl.
    rewrite Hw. reflexivity. }
  destruct (server env _ _) as [status|]; [destruct (ok status)|];
    try apply Hfail.
  rewrite exec_removeUploadedEvents. rewrite Hw. reflexivity.
Qed.

(** The loop of [uploadEvents] over [batches]: while writes succeed it goes
    through every batch, one request each, in order. *)
Lemma for_of_uploadBatch_sends_all env batches w :
  (forall n, setItem_ok env n = true) ->
  let r := exec (for_of batches (fun batch => await (uploadBatch env batch)))
             w in
  r.2 = Ok tt /\
  config r.1 = config w /\ isUploading r.1 = isUploading w /\
  exists requests,
    sent r.1 = sent w ++ requests /\
    Forall2 (fun request batch =>
               exists now, request = batch_request (config w) batch now)
            requests batches.
Proof.
  intros Hw. revert w. induction batches as [|batch batches IH]; intros w.
  - simpl. repeat split. exists []. rewrite app_nil_r. split; constructor.
  - simpl. autorewrite with exec.
    pose proof (uploadBatch_returns env batch w Hw) as Hret.
    destruct (uploadBatch_frame env batch w) as (Hc&Hu&_&_&Hs).
    destruct (exec (uploadBatch env batch) w) as [w1 o]. simpl in *.
    subst o. destruct (IH w1) as (Hret'&Hc'&Hu'&requests&Hs'&HF).
    split; [exact Hret'|]. split; [congruence|]. split; [congruence|].
    eexists (_ :: requests). split.
    + rewrite Hs', Hs, <- app_assoc. reflexivity.
    + constructor; [eexists; reflexivity|]. rewrite <- Hc. exact HF.
Qed.





(** ** Scenarios *)

(** One event appended, then a run against a server that accepts it. *)
Example scenario_append_then_flush :
  let w1 := appended env_all_fine 1 in
  let w2 := (exec (uploadEvents env_all_fine) w1).1 in
  (exec (getQueueSize env_all_fine) w1).2 = Ok 1%nat /\
  (exec (getQueueSize env_all_fine) w2).2 = Ok 0%nat.
Proof. vm_compute. split; reflexivity. Qed.

(** 1050 events appended: 1000 are stored, the 51st to the 1050th (each
    append reads the clock twice, the second time for the timestamp). *)
Example scenario_1050_appends :
  let w := appended env_all_fine 1050 in
  length (stored_events (disk w)) = 1000%nat /\
  timestamp <$> head (stored_events (disk w)) = Some (1700000000000 + 101) /\
  timestamp <$> last (stored_events (disk w)) = Some (1700000000000 + 2099).
Proof. vm_compute. repeat split; reflexivity. Qed.

(** One event with [maxRetries = 3] and three failed runs: it is gone after
    the third. *)
Example scenario_three_failed_runs :
  let w1 := appended env_server_down 1 in
  let w2 := (exec (uploadEvents env_server_down) w1).1 in
  let w3 := (exec (uploadEvents env_server_down) w2).1 in
  let w4 := (exec (uploadEvents env_server_down) w3).1 in
  retryCount <$> stored_events (disk w1) = [0] /\
  retryCount <$> stored_events (disk w2) = [1] /\
  retryCount <$> stored_events (disk w3) = [2] /\
  stored_events (disk w4) = [].
Proof. vm_compute. repeat split; reflexivity. Qed.

(** 120 events in batches of 50, the first batch failing: all three batches
    are sent; the first 50 events stay with one retry, the other 70 are
    removed as uploaded. *)
Example scenario_first_of_three_batches_fails :
  let w := appended env_first_fails 120 in
  let w' := (exec (uploadEvents env_first_fails) w).1 in
  length (sent w') = 3%nat /\
  stored_events (disk w')
  = incrementRetry <$> take 50 (stored_events (disk w)).
Proof. vm_compute. split; reflexivity. Qed.

(** ** The retry bound *)

Lemma retries_bounded_frame w w' :
  config w' = config w -> disk w' = disk w ->
  retries_bounded w -> retries_bounded w'.
Proof. unfold retries_bounded. intros -> ->. tauto. Qed.

Lemma retries_bounded_write w w' events :
  config w' = config w -> disk w' = Some (Serialized events) ->
  Forall within_retries events ->
  retries_bounded w -> retries_bounded w'.
Proof. unfold retries_bounded. intros -> -> H [H0 _]. split; assumption. Qed.

Lemma events_read_bounded env w :
  retries_bounded w -> Forall within_retries (events_read env w).
Proof.
  intros [_ H]. unfold events_read.
  destruct (getItem_ok env (reads w)); [exact H | constructor].
Qed.

Lemma handleFailedEvent_bounded events failedEvent :
  Forall within_retries events ->
  Forall within_retries (handleFailedEvent events failedEvent).1.
Proof.
  intros H. unfold handleFailedEvent, findIndex.
  destruct (list_find _ events) as [[i e]|] eqn:Hfind; [|exact H].
  apply list_find_Some in Hfind as (Hi&_&_).
  pose proof (Forall_lookup_1 _ _ _ _ H Hi) as [He1 He2].
  case_bool_decide as Hcmp; simpl.
  - apply Forall_delete, H.
  - apply Forall_insert; [exact H|].
    unfold within_retries, incrementRetry in *. simpl in *. lia.
Qed.

Lemma handleFailedEvents_bounded events batch :
  Forall within_retries events ->
  Forall within_retries (handleFailedEvents events batch).1.
Proof.
  revert events. induction batch as [|b batch IH]; intros events H; simpl.
  - exact H.
  - pose proof (handleFailedEvent_bounded events b H) as H1.
    destruct (handleFailedEvent events b) as [events1 removed1].
    specialize (IH events1 H1).
    destruct (handleFailedEvents events1 batch). exact IH.
Qed.

Lemma withoutUploaded_bounded uploadedBatch events :
  Forall within_retries events ->
  Forall within_retries (withoutUploaded uploadedBatch events).
Proof.
  intros H. rewrite Forall_forall in *. intros e He.
  unfold withoutUploaded in He. apply list_elem_of_filter in He as [_ He].
  apply H, He.
Qed.

Lemma saveEvent_bounded env event w :
  retries_bounded w -> retries_bounded (exec (saveEvent env event) w).1.
Proof.
  intros Hb. pose proof (events_read_bounded env w Hb) as Hr.
  destruct (saveEvent_spec env event w) as (w'&->&Hc&_&_&_&_&_&Hd). simpl.
  revert Hd. destruct (setItem_ok env (writes w)); intros Hd.
  - destruct Hd as (Hd&_).
    eapply retries_bounded_write; [exact Hc|exact Hd| |exact Hb].
    rewrite pushCapped_keepLast. apply Forall_drop, Forall_app. split;
      [exact Hr|]. constructor; [|constructor].
    destruct Hb as [Hb _]. unfold within_retries. simpl. lia.
  - destruct Hd as (Hd&_). eapply retries_bounded_frame; eassumption.
Qed.

Lemma removeUploadedEvents_bounded env uploadedBatch w :
  retries_bounded w ->
  retries_bounded (exec (removeUploadedEvents env uploadedBatch) w).1.
Proof.
  intros Hb. pose proof (events_read_bounded env w Hb) as Hr.
  rewrite exec_removeUploadedEvents.
  destruct (after_read_frame env w) as (Hc&_&_&Hd&_).
  destruct (setItem_ok env (writes w)); simpl.
  - eapply retries_bounded_write; [exact Hc|reflexivity| |exact Hb].
    apply withoutUploaded_bounded, Hr.
  - eapply retries_bounded_frame; [exact Hc|reflexivity|exact Hb].
Qed.

Lemma handleUploadFailure_bounded env batch w :
  retries_bounded w ->
  retries_bounded (exec (handleUploadFailure env batch) w).1.
Proof.
  intros Hb. pose proof (events_read_bounded env w Hb) as Hr.
  rewrite exec_handleUploadFailure. simpl.
  destruct (after_read_frame env w) as (Hc&_&_&Hd&_).
  destruct (log_evictions_frame
              (handleFailedEvents (events_read env w) batch).2
              (after_read env w)) as (Hc'&_&Hd'&_).
  destruct (setItem_ok env (writes w)); simpl.
  - eapply (retries_bounded_write w); [|reflexivity| |exact Hb];
      [simpl; congruence|].
    apply handleFailedEvents_bounded, Hr.
  - apply (retries_bounded_frame w); [| |exact Hb]; simpl; congruence.
Qed.

Lemma uploadBatch_bounded env batch w :
  retries_bounded w -> retries_bounded (exec (uploadBatch env batch) w).1.
Proof.
  intros Hb. rewrite exec_uploadBatch. simpl.
  set (w1 := did_fetch _ _).
  assert (Hb1 : retries_bounded w1)
    by (eapply (retries_bounded_frame _); [| |exact Hb]; reflexivity).
  assert (Hfail : forall error w2, retries_bounded w2 ->
            retries_bounded (exec (handleUploadFailure env batch)
                               (did_log (BatchFailed error) w2)).1).
  { intros error w2 H2. apply handleUploadFailure_bounded.
    eapply (retries_bounded_frame _); [| |exact H2]; reflexivity. }
  destruct (server env _ _) as [status|]; [destruct (ok status)|];
    try (apply Hfail; exact Hb1).
  pose proof (removeUploadedEvents_bounded env batch w1 Hb1) as H2.
  destruct (exec (removeUploadedEvents env batch) w1) as [w2 [[]|e|]];
    simpl in *; try exact H2.
  apply Hfail, H2.
Qed.

Lemma for_of_uploadBatch_bounded env batches w :
  retries_bounded w ->
  retries_bounded
    (exec (for_of batches (fun batch => await (uploadBatch env batch))) w).1.
Proof.
  revert w. induction batches as [|batch batches IH]; intros w Hb.
  - exact Hb.
  - autorewrite with exec.
    pose proof (uploadBatch_bounded env batch w Hb) as H1.
    destruct (exec (uploadBatch env batch) w) as [w1 [[]|e|]]; simpl in *;
      try exact H1.
    apply IH, H1.
Qed.

Lemma uploadEvents_bounded env w :
  retries_bounded w -> retries_bounded (exec (uploadEvents env) w).1.
Proof.
  intros Hb. rewrite exec_uploadEvents.
  destruct (isUploading w); [exact Hb|]. simpl.
  destruct (after_read_frame env (set_isUploading true w)) as (Hc&_&_&Hd&_).
  simpl in Hc, Hd.
  assert (Hb1 : retries_bounded
                  (did_probe (after_read env (set_isUploading true w))))
    by (eapply (retries_bounded_frame _); [| |exact Hb]; simpl; assumption).
  case_bool_decide; simpl.
  { eapply (retries_bounded_frame _); [| |exact Hb]; simpl; assumption. }
  destruct (negb _); simpl.
  { eapply (retries_bounded_frame _); [| |exact Hb]; simpl; assumption. }
  destruct (createBatches _ _) as [batches|]; simpl; [|exact Hb1].
  pose proof (for_of_uploadBatch_bounded env batches _ Hb1) as H2.
  destruct (exec (for_of batches _) _) as [w2 [[]|e|]]; simpl in *;
    try exact H2;
    (eapply (retries_bounded_frame _); [| |exact H2]; reflexivity).
Qed.

Lemma perform_bounded env op w :
  retries_bounded w -> retries_bounded (perform env op w).
Proof.
  intros Hb. destruct op; simpl.
  - apply saveEvent_bounded, Hb.
  - apply removeUploadedEvents_bounded, Hb.
  - apply handleUploadFailure_bounded, Hb.
  - apply uploadBatch_bounded, Hb.
  - apply uploadEvents_bounded, Hb.
  - unfold getQueueSize. autorewrite with exec. simpl.
    destruct (after_read_frame env w) as (Hc&_&_&Hd&_).
    eapply retries_bounded_frame; eassumption.
  - unfold clearQueue. rewrite exec_removeItem.
    destruct (setItem_ok env (writes w)); simpl.
    + destruct Hb as [Hb _]. split; [exact Hb | constructor].
    + eapply (retries_bounded_frame _); [| |exact Hb]; reflexivity.
Qed.

(** C4. The retry bound is an invariant: with a configured limit of at
    least zero, and a store whose events are within their limits to begin
    with, any sequence of appends, removals of uploaded batches, failure
    handlings, single batch uploads, whole runs, size queries and clears,
    under any behaviour of storage and network, leaves every stored event
    with [retryCount <= maxRetries], and strictly below once it has failed. *)
Theorem retryCount_never_exceeds_maxRetries env ops w :
  0 <= config_maxRetries (config w) ->
  Forall within_retries (stored_events (disk w)) ->
  Forall (fun e => retryCount e <= maxRetries e /\
                   (0 < retryCount e -> retryCount e < maxRetries e))
         (stored_events (disk (foldl (fun w op => perform env op w) w ops))).
Proof.
  intros Hcfg Hev.
  assert (Hb : retries_bounded w) by (split; assumption).
  clear Hcfg Hev. revert w Hb.
  induction ops as [|op ops IH]; intros w Hb; simpl.
  - exact (proj2 Hb).
  - apply IH, perform_bounded, Hb.
Qed.

Lemma retryCount_never_exceeds_maxRetries_witness :
  Forall (fun e => retryCount e <= maxRetries e /\
                   (0 < retryCount e -> retryCount e < maxRetries e))
         (stored_events
            (disk (foldl (fun w op => perform env_first_fails op w)
                     three_stored
                     [OpSaveEvent crash_report;
                      OpUploadFailure [event_a; event_b];
                      OpUploadEvents;
                      OpRemoveUploaded [event_c]]))).
Proof.
  apply (retryCount_never_exceeds_maxRetries env_first_fails).
  - simpl. lia.
  - simpl. repeat constructor; simpl; lia.
Defined.

(** ** Interleaved invocations *)

Lemma resume_Neutral {A B} (t : Task A) (f : Outcome A -> Async B) :
  Neutral t -> (forall o, Keeps (f o)) ->
  forall w, isUploading (resume t f w).1 = isUploading w /\
            Neutral (resume t f w).2.
Proof.
  intros Ht Hf. induction t as [o|k IH] using Task_resume_ind; intros w.
  - apply Hf.
  - simpl. split; [reflexivity|]. intros w'.
    destruct (Ht w') as [H1 H2]. specialize (IH w' H2).
    destruct (k w') as [w'' t']. simpl in *.
    destruct (IH w'') as [H3 H4]. split; [congruence|exact H4].
Qed.

Lemma Keeps_andThen {A B} (m : Async A) (f : Outcome A -> Async B) :
  Keeps m -> (forall o, Keeps (f o)) -> Keeps (andThen m f).
Proof.
  intros Hm Hf w. unfold andThen. destruct (Hm w) as [H1 H2].
  destruct (m w) as [w' t]. simpl in *.
  destruct (resume_Neutral t f H2 Hf w') as [H3 H4]. split; [congruence|exact H4].
Qed.

Lemma Keeps_finish {A} (o : Outcome A) : Keeps (finish o).
Proof. intros w. split; exact I || reflexivity. Qed.

Lemma Keeps_pure {A} (a : A) : Keeps (pure a).
Proof. apply Keeps_finish. Qed.

Lemma Keeps_throw {A} e : Keeps (@throw A e).
Proof. apply Keeps_finish. Qed.

Lemma Keeps_bind {A B} (m : Async A) (f : A -> Async B) :
  Keeps m -> (forall a, Keeps (f a)) -> Keeps (m ≫= f).
Proof.
  intros Hm Hf. apply Keeps_andThen; [exact Hm|].
  intros [a|e|]; [apply Hf | apply Keeps_finish | apply Keeps_finish].
Qed.

Lemma Keeps_try_catch {A} (m : Async A) (h : Error -> Async A) :
  Keeps m -> (forall e, Keeps (h e)) -> Keeps (try_catch m h).
Proof.
  intros Hm Hh. apply Keeps_andThen; [exact Hm|].
  intros [a|e|]; [apply Keeps_finish | apply Hh | apply Keeps_finish].
Qed.

Lemma Keeps_suspend {A} (o : Outcome A) : Keeps (suspend o).
Proof. intros w. simpl. split; [reflexivity|]. intros w'. split; exact I || reflexivity. Qed.

Lemma Keeps_await {A} (m : Async A) : Keeps m -> Keeps (await m).
Proof.
  intros Hm. apply Keeps_andThen; [exact Hm|].
  intros [a|e|]; [apply Keeps_suspend | apply Keeps_suspend | apply Keeps_finish].
Qed.

Lemma Keeps_for_of {A} (xs : list A) (body : A -> Async unit) :
  (forall x, Keeps (body x)) -> Keeps (for_of xs body).
Proof.
  intros Hb. induction xs as [|x xs IH]; simpl.
  - apply Keeps_pure.
  - apply Keeps_bind; [apply Hb | intros _; exact IH].
Qed.

Lemma Keeps_get {A} (field : World -> A) : Keeps (get field).
Proof. intros w. split; exact I || reflexivity. Qed.

Lemma Keeps_update (f : World -> World) :
  (forall w, isUploading (f w) = isUploading w) -> Keeps (update f).
Proof. intros Hf w. split; [apply Hf | exact I]. Qed.

Lemma Keeps_console_log l : Keeps (console_log l).
Proof. apply Keeps_update. reflexivity. Qed.

Lemma Keeps_Date_now env : Keeps (Date_now env).
Proof. intros w. split; exact I || reflexivity. Qed.

Lemma Keeps_Math_random36 env : Keeps (Math_random36 env).
Proof. intros w. split; exact I || reflexivity. Qed.

Lemma Keeps_getItem env : Keeps (AsyncStorage_getItem env).
Proof.
  intros w. split; [reflexivity|]. intros w'. split; exact I || reflexivity.
Qed.

Lemma Keeps_setItem env events : Keeps (AsyncStorage_setItem env events).
Proof.
  intros w. split; [reflexivity|]. intros w'. simpl.
  destruct (setItem_ok env (writes w')); split; exact I || reflexivity.
Qed.

Lemma Keeps_removeItem env : Keeps (AsyncStorage_removeItem env).
Proof.
  intros w. split; [reflexivity|]. intros w'. simpl.
  destruct (setItem_ok env (writes w')); split; exact I || reflexivity.
Qed.

Lemma Keeps_NetInfo_fetch env : Keeps (NetInfo_fetch env).
Proof.
  intros w. split; [reflexivity|]. intros w'. split; exact I || reflexivity.
Qed.

Lemma Keeps_fetch env r : Keeps (fetch env r).
Proof.
  intros w. split; [reflexivity|]. intros w'. split; exact I || reflexivity.
Qed.

Lemma Keeps_JSON_parse stored : Keeps (JSON_parse stored).
Proof. destruct stored; apply Keeps_finish. Qed.

Lemma Keeps_clearTimeout h : Keeps (clearTimeout h).
Proof. apply Keeps_update. reflexivity. Qed.

Lemma Keeps_setTimeout_upload : Keeps setTimeout_upload.
Proof. intros w. split; exact I || reflexivity. Qed.

Create HintDb keeps.
#[local] Hint Resolve Keeps_finish Keeps_pure Keeps_throw Keeps_bind
  Keeps_try_catch Keeps_suspend Keeps_await Keeps_for_of Keeps_get
  Keeps_console_log Keeps_Date_now Keeps_Math_random36 Keeps_getItem
  Keeps_setItem Keeps_removeItem Keeps_NetInfo_fetch Keeps_fetch
  Keeps_JSON_parse Keeps_clearTimeout Keeps_setTimeout_upload : keeps.

Ltac keeps :=
  repeat first
    [ progress (intros)
    | apply Keeps_bind | apply Keeps_try_catch | apply Keeps_await
    | apply Keeps_for_of
    | apply Keeps_update; reflexivity
    | solve [auto with keeps]
    | match goal with
      | |- Keeps (match ?x with _ => _ end) => destruct x
      | |- Keeps (let (_, _) := ?x in _) => destruct x
      end ].

Lemma Keeps_getStoredEvents env : Keeps (getStoredEvents env).
Proof. unfold getStoredEvents. keeps. Qed.

Lemma Keeps_isOnline env : Keeps (isOnline env).
Proof. unfold isOnline. keeps. Qed.

Lemma Keeps_tryUpload : Keeps tryUpload.
Proof. unfold tryUpload. keeps. Qed.

Lemma Keeps_saveEvent env event : Keeps (saveEvent env event).
Proof.
  pose proof (Keeps_getStoredEvents env). pose proof Keeps_tryUpload.
  unfold saveEvent, generateEventId. keeps.
Qed.

Lemma Keeps_handleUploadFailure env batch :
  Keeps (handleUploadFailure env batch).
Proof.
  pose proof (Keeps_getStoredEvents env). unfold handleUploadFailure. keeps.
Qed.

Lemma Keeps_removeUploadedEvents env batch :
  Keeps (removeUploadedEvents env batch).
Proof.
  pose proof (Keeps_getStoredEvents env). unfold removeUploadedEvents. keeps.
Qed.

Lemma Keeps_uploadBatch env batch : Keeps (uploadBatch env batch).
Proof.
  pose proof (Keeps_handleUploadFailure env batch).
  pose proof (Keeps_removeUploadedEvents env batch).
  unfold uploadBatch. keeps.
Qed.

Lemma Keeps_call env c : Keeps (call env c).
Proof.
  pose proof (Keeps_getStoredEvents env).
  destruct c; simpl; [apply Keeps_saveEvent | | apply Keeps_removeItem].
  unfold getQueueSize. keeps.
Qed.

Lemma Keeps_uploadEvents_try env : Keeps (uploadEvents_try env).
Proof.
  pose proof (Keeps_getStoredEvents env). pose proof (Keeps_isOnline env).
  pose proof (Keeps_uploadBatch env).
  unfold uploadEvents_try. keeps.
Qed.

(** A call of [uploadEvents], up to its first suspension. *)
Lemma uploadEvents_call env w :
  uploadEvents env w =
  if isUploading w then (w, Done (Ok tt))
  else try_finally (uploadEvents_try env) (update (set_isUploading false))
         (set_isUploading true w).
Proof.
  unfold uploadEvents, mbind, Async_bind, bind, andThen, get, update. simpl.
  destruct (isUploading w); reflexivity.
Qed.

Lemma resume_finally_HoldsGuard (t : Task unit) :
  Neutral t ->
  let cleanup (o : Outcome unit) : Async unit :=
    match o with
    | Diverge => finish Diverge
    | _ => andThen (update (set_isUploading false)) (fun oc =>
             match oc with
             | Ok _ => finish o
             | Throw e => finish (Throw e)
             | Diverge => finish Diverge
             end)
    end in
  forall w, isUploading w = true ->
    isUploading (resume t cleanup w).1 = negb (returned (resume t cleanup w).2)
    /\ HoldsGuard (resume t cleanup w).2.
Proof.
  intros Ht cleanup.
  induction t as [o|k IH] using Task_resume_ind; intros w Hw.
  - destruct o as [[]|e|]; simpl; split; try exact I; try reflexivity.
    exact Hw.
  - simpl. split; [exact Hw|]. intros w' Hw'.
    destruct (Ht w') as [H1 H2]. specialize (IH w' H2).
    destruct (k w') as [w'' t']. simpl in *.
    apply IH. congruence.
Qed.

(** A call of [uploadEvents] that finds the guard open sets it and holds it
    until it returns. *)
Lemma uploadEvents_HoldsGuard env w :
  isUploading w = false ->
  isUploading (uploadEvents env w).1 = negb (returned (uploadEvents env w).2)
  /\ HoldsGuard (uploadEvents env w).2.
Proof.
  intros Hw. rewrite uploadEvents_call, Hw.
  unfold try_finally, andThen.
  destruct (Keeps_uploadEvents_try env (set_isUploading true w)) as [H1 H2].
  destruct (uploadEvents_try env (set_isUploading true w)) as [w' t].
  simpl in H1, H2. apply (resume_finally_HoldsGuard t H2 w'). exact H1.
Qed.

Lemma runs_in_flight_app l1 l2 :
  runs_in_flight (l1 ++ l2) = (runs_in_flight l1 + runs_in_flight l2)%nat.
Proof. unfold runs_in_flight. rewrite filter_app, length_app. reflexivity. Qed.

Lemma runs_in_flight_cons a l :
  runs_in_flight (a :: l)
  = ((if in_flight a then 1 else 0) + runs_in_flight l)%nat.
Proof.
  unfold runs_in_flight. rewrite filter_cons.
  destruct (in_flight a); simpl; reflexivity.
Qed.

Lemma runs_in_flight_insert l i a a' :
  l !! i = Some a ->
  (runs_in_flight (<[i := a']> l) + (if in_flight a then 1 else 0)
   = runs_in_flight l + (if in_flight a' then 1 else 0))%nat.
Proof.
  intros Hi. pose proof (lookup_lt_Some _ _ _ Hi) as Hlt.
  rewrite <- (take_drop_middle l i a Hi) at 2.
  rewrite insert_take_drop by exact Hlt.
  rewrite !runs_in_flight_app, !runs_in_flight_cons. lia.
Qed.

Lemma runs_in_flight_lookup l i a :
  l !! i = Some a ->
  ((if in_flight a then 1 else 0) <= runs_in_flight l)%nat.
Proof.
  intros Hi. rewrite <- (take_drop_middle l i a Hi).
  rewrite runs_in_flight_app, runs_in_flight_cons. lia.
Qed.

Lemma queue_turn_single_flight env s s' :
  single_flight s -> queue_turn env s s' -> single_flight s'.
Proof.
  intros (Hwb&Hle&Hclear) Hturn. destruct Hturn as [s|s c|s i a k Hi Hk];
    unfold single_flight; cbn [world activities].
  - (* a trigger *)
    rewrite runs_in_flight_app, runs_in_flight_cons.
    change (runs_in_flight []) with 0%nat.
    destruct (isUploading (world s)) eqn:Hbusy.
    + rewrite uploadEvents_call, Hbusy. cbn [fst snd negb in_flight].
      split; [|split; [lia|intros; congruence]].
      apply Forall_app. split; [exact Hwb|].
      constructor; [reflexivity | constructor].
    + destruct (uploadEvents_HoldsGuard env (world s) Hbusy) as [H1 H2].
      specialize (Hclear eq_refl). cbn [negb in_flight].
      split; [|split].
      * apply Forall_app. split; [exact Hwb|].
        constructor; [exact H2 | constructor].
      * destruct (negb _); lia.
      * intros H0. rewrite H0 in H1.
        destruct (returned _); [cbn [negb]; lia | discriminate].
  - (* a call of another method *)
    destruct (Keeps_call env c (world s)) as [H1 H2].
    rewrite runs_in_flight_app, runs_in_flight_cons.
    change (runs_in_flight []) with 0%nat. cbn [in_flight].
    split; [|split; [lia|]].
    + apply Forall_app. split; [exact Hwb|].
      constructor; [exact H2 | constructor].
    + rewrite H1. intros H0. rewrite (Hclear H0). reflexivity.
  - (* a resumption *)
    pose proof (Forall_lookup_1 _ _ _ _ Hwb Hi) as Ha.
    pose proof (runs_in_flight_insert _ i a
                  (with_task a (k (world s)).2) Hi) as Hcount.
    pose proof (runs_in_flight_lookup _ i a Hi) as Hhere.
    destruct a as [[|] t|t]; cbn [task_of] in Hk; subst t;
      cbn [well_behaved with_task in_flight returned negb]
        in Ha, Hcount, Hhere |- *.
    + (* the run in flight *)
      assert (Hset : isUploading (world s) = true).
      { destruct (isUploading (world s)); [reflexivity|].
        specialize (Hclear eq_refl). lia. }
      destruct (Ha (world s) Hset) as [H1 H2].
      split; [|split].
      * apply Forall_insert; [exact Hwb | exact H2].
      * destruct (negb _); lia.
      * intros H0. rewrite H0 in H1.
        destruct (returned _); [cbn [negb] in Hcount; lia | discriminate].
    + discriminate.
    + destruct (Ha (world s)) as [H1 H2].
      split; [|split].
      * apply Forall_insert; [exact Hwb | exact H2].
      * lia.
      * rewrite H1. intros H0. specialize (Hclear H0). lia.
Qed.

Lemma reconfigured_single_flight uploadConfig s :
  runs_in_flight (activities s) = 0%nat ->
  single_flight s -> single_flight (reconfigured uploadConfig s).
Proof.
  intros Hnone (Hwb&_&_). unfold single_flight, reconfigured.
  cbn [world activities]. rewrite Hnone.
  split; [exact Hwb|]. split; [lia | reflexivity].
Qed.

Lemma reachable_undisturbed_single_flight env s :
  reachable_undisturbed env s -> single_flight s.
Proof.
  induction 1 as [w Hw|s s' _ IH Hturn|s uploadConfig _ IH Hnone].
  - split; [constructor|]. unfold runs_in_flight. simpl.
    split; [lia | reflexivity].
  - eapply queue_turn_single_flight; eassumption.
  - apply reconfigured_single_flight; assumption.
Qed.

(** C8. Where the code breaks single flight: [uploadEvents] is triggered and
    its run is suspended at its first read, with the guard set;
    [MobilePulseSDK.configureOfflineQueue] then copies the fields of a fresh
    queue, its cleared guard among them, onto the shared queue; the next
    trigger finds the guard clear and starts a run of its own.  Two runs are
    then in flight. *)
Theorem second_run_in_flight_after_configure :
  reachable env_first_fails two_runs_started /\
  runs_in_flight (activities one_run_started) = 1%nat /\
  isUploading (world one_run_started) = true /\
  isUploading (world (reconfigured one_per_batch one_run_started)) = false /\
  runs_in_flight (activities two_runs_started) = 2%nat.
Proof.
  split; [|repeat split; reflexivity].
  apply (reachable_turn env_first_fails
           (reconfigured one_per_batch one_run_started)).
  - apply (reachable_turn env_first_fails one_run_started).
    + apply (reachable_turn env_first_fails
               {| world := three_stored; activities := [] |}).
      * apply reachable_start. reflexivity.
      * apply turn_queue.
        apply (queue_trigger env_first_fails
                 {| world := three_stored; activities := [] |}).
    + apply turn_configure.
  - apply turn_queue.
    apply (queue_trigger env_first_fails
             (reconfigured one_per_batch one_run_started)).
Qed.

(** X21. Single flight while the queue is left alone during a run: however
    triggers, other calls and resumptions interleave on the event loop, and
    however often the queue is reconfigured while no run is in flight, at
    most one [uploadEvents] run is in flight; and while one is in flight
    the guard is set, so that a trigger arriving then returns at once,
    changes nothing and starts no run. *)
Theorem uploadEvents_single_flight_undisturbed env s :
  reachable_undisturbed env s ->
  (runs_in_flight (activities s) <= 1)%nat /\
  (runs_in_flight (activities s) = 1%nat ->
   isUploading (world s) = true /\
   uploadEvents env (world s) = (world s, Done (Ok tt)) /\
   in_flight (Upload (negb (isUploading (world s)))
                (uploadEvents env (world s)).2) = false).
Proof.
  intros Hr.
  destruct (reachable_undisturbed_single_flight env s Hr) as (_&Hle&Hclear).
  split; [exact Hle|]. intros Hone.
  assert (Hset : isUploading (world s) = true).
  { destruct (isUploading (world s)); [reflexivity|].
    specialize (Hclear eq_refl). lia. }
  split; [exact Hset|].
  rewrite uploadEvents_call, Hset. split; reflexivity.
Qed.

Lemma uploadEvents_single_flight_undisturbed_witness :
  let s := run_started_after_configure in
  (runs_in_flight (activities s) <= 1)%nat /\
  (runs_in_flight (activities s) = 1%nat ->
   isUploading (world s) = true /\
   uploadEvents env_first_fails (world s) = (world s, Done (Ok tt)) /\
   in_flight (Upload (negb (isUploading (world s)))
                (uploadEvents env_first_fails (world s)).2)
   = false).
Proof.
  apply (uploadEvents_single_flight_undisturbed env_first_fails
           run_started_after_configure).
  apply (undisturbed_turn env_first_fails
           (reconfigured one_per_batch
              {| world := three_stored; activities := [] |})).
  - apply undisturbed_configure.
    + apply undisturbed_start. reflexivity.
    + reflexivity.
  - apply (queue_trigger env_first_fails
             (reconfigured one_per_batch
                {| world := three_stored; activities := [] |})).
Defined.

Example run_started_after_configure_in_flight :
  runs_in_flight (activities run_started_after_configure) = 1%nat.
Proof. reflexivity. Qed.

(** ** More on [createBatches] *)

Lemma createBatches_from_sizes fuel (events : list QueuedEvent) batchSize i :
  0 < batchSize -> 0 <= i ->
  forall batches,
    createBatches_from fuel events batchSize i = Some batches ->
    Forall (fun b => b <> [] /\ Z.of_nat (length b) <= batchSize) batches /\
    forall k b, batches !! k = Some b -> (S k < length batches)%nat ->
                Z.of_nat (length b) = batchSize.
Proof.
  intros Hbs. revert i. induction fuel as [|fuel IH]; intros i Hi batches.
  - simpl. case_bool_decide; [discriminate|]. intros [= <-].
    split; [constructor|]. intros k b Hk. rewrite lookup_nil in Hk. done.
  - simpl. case_bool_decide as Hlt; [|intros [= <-]; split; [constructor|];
      intros k b Hk; rewrite lookup_nil in Hk; done].
    destruct (createBatches_from fuel events batchSize (i + batchSize))
      as [rest|] eqn:Hrest; [|discriminate].
    simpl. intros [= <-].
    destruct (IH (i + batchSize) ltac:(lia) rest Hrest) as [Hall Hfull].
    assert (Hlen : length (slice events i (i + batchSize))
                   = Z.to_nat (Z.min batchSize (Z.of_nat (length events) - i))).
    { rewrite slice_take_drop by lia.
      rewrite length_take, length_drop. lia. }
    split.
    + constructor; [|exact Hall]. split; [|lia].
      intros Hnil. rewrite Hnil in Hlen. simpl in Hlen. lia.
    + intros [|k] b Hk Hlast; simpl in Hk, Hlast.
      * injection Hk as <-. rewrite Hlen.
        destruct rest as [|b' rest']; [simpl in Hlast; lia|].
        (* there is a next batch, so the loop went on from [i + batchSize] *)
        destruct fuel as [|fuel']; simpl in Hrest.
        -- case_bool_decide; [discriminate|]. discriminate.
        -- case_bool_decide; [|discriminate]. lia.
      * apply (Hfull k b Hk). lia.
Qed.

(** X1.  [createBatches] with a positive batch size returns: the batches,
    put end to end, are the events in their order; no batch is empty or
    longer than [batchSize]; every batch but the last has exactly
    [batchSize] events. *)
Theorem createBatches_partitions (events : list QueuedEvent) batchSize :
  0 < batchSize ->
  exists batches,
    createBatches events batchSize = Some batches /\
    concat batches = events /\
    Forall (fun b => b <> [] /\ Z.of_nat (length b) <= batchSize) batches /\
    forall k b, batches !! k = Some b -> (S k < length batches)%nat ->
                Z.of_nat (length b) = batchSize.
Proof.
  intros Hbs. destruct (createBatches_some events batchSize Hbs)
    as (batches&Hb&Hc).
  exists batches. split; [exact Hb|]. split; [exact Hc|].
  apply (createBatches_from_sizes (length events) events batchSize 0);
    [exact Hbs | lia | exact Hb].
Qed.

Lemma createBatches_partitions_witness :
  exists batches,
    createBatches [event_a; event_b; event_c] 2 = Some batches /\
    concat batches = [event_a; event_b; event_c] /\
    Forall (fun b => b <> [] /\ Z.of_nat (length b) <= 2) batches /\
    forall k b, batches !! k = Some b -> (S k < length batches)%nat ->
                Z.of_nat (length b) = 2.
Proof.
  apply (createBatches_partitions [event_a; event_b; event_c] 2).
  reflexivity.
Defined.

(** ** Runs that send nothing *)

(** X2.  With a batch size of zero or less, a run of [uploadEvents] that
    finds stored events while online never returns: the loop of
    [createBatches] does not advance.  Nothing is sent or written, the
    [finally] block is not reached, and the guard stays set, so that every
    later call of [uploadEvents] returns at once without uploading. *)
Theorem uploadEvents_hangs_on_batchSize_zero env w :
  batchSize (config w) <= 0 ->
  isUploading w = false ->
  events_read env w <> [] ->
  netInfo env (probes w) = Some (Some true) ->
  let w' := (exec (uploadEvents env) w).1 in
  (exec (uploadEvents env) w).2 = Diverge /\
  isUploading w' = true /\
  sent w' = sent w /\
  disk w' = disk w /\
  exec (uploadEvents env) w' = (w', Ok tt).
Proof.
  intros Hbs Hidle Hne Hnet. rewrite exec_uploadEvents, Hidle. cbv zeta.
  rewrite bool_decide_eq_false_2
    by (destruct (events_read env w); [done|discriminate]).
  rewrite Hnet, (createBatches_diverges _ _ Hbs Hne). simpl.
  destruct (after_read_frame env (set_isUploading true w))
    as (_&Hu&_&Hd&_&Hs&_).
  simpl in Hu, Hd, Hs. repeat split; try assumption.
  rewrite exec_uploadEvents. simpl. rewrite Hu. reflexivity.
Qed.

Lemma uploadEvents_hangs_on_batchSize_zero_witness :
  let w := one_stored_zero_batch in
  let w' := (exec (uploadEvents env_all_fine) w).1 in
  (exec (uploadEvents env_all_fine) w).2 = Diverge /\
  isUploading w' = true /\
  sent w' = sent w /\
  disk w' = disk w /\
  exec (uploadEvents env_all_fine) w' = (w', Ok tt).
Proof.
  apply (uploadEvents_hangs_on_batchSize_zero env_all_fine
           one_stored_zero_batch).
  - simpl. lia.
  - reflexivity.
  - unfold events_read. simpl. discriminate.
  - reflexivity.
Defined.

(** X3.  A run of [uploadEvents] that finds the device offline, or cannot
    tell (the probe fails or reports [null]), sends no request, writes
    nothing to the storage, returns normally and releases the guard. *)
Theorem uploadEvents_offline_sends_nothing env w :
  isUploading w = false ->
  netInfo env (probes w) <> Some (Some true) ->
  let w' := (exec (uploadEvents env) w).1 in
  (exec (uploadEvents env) w).2 = Ok tt /\
  sent w' = sent w /\
  disk w' = disk w /\
  writes w' = writes w /\
  isUploading w' = false.
Proof.
  intros Hidle Hnet. rewrite exec_uploadEvents, Hidle. cbv zeta.
  destruct (after_read_frame env (set_isUploading true w))
    as (_&_&_&Hd&_&Hs&_&Hw&_).
  simpl in Hd, Hs, Hw.
  case_bool_decide; [simpl; repeat split; assumption|].
  replace (negb _) with true; [simpl; repeat split; assumption|].
  destruct (netInfo env (probes w)) as [[[|]|]|]; try reflexivity.
  contradiction.
Qed.

Lemma uploadEvents_offline_sends_nothing_witness :
  let w := three_stored in
  let w' := (exec (uploadEvents env_offline) w).1 in
  (exec (uploadEvents env_offline) w).2 = Ok tt /\
  sent w' = sent w /\
  disk w' = disk w /\
  writes w' = writes w /\
  isUploading w' = false.
Proof.
  apply (uploadEvents_offline_sends_nothing env_offline three_stored).
  - reflexivity.
  - simpl. discriminate.
Defined.

(** X4.  [isOnline] never throws and makes one probe: it answers [true]
    exactly when the probe succeeds and reports [isConnected] as [true];
    a failed probe and an [isConnected] of [null] or [false] all read as
    offline. *)
Theorem isOnline_never_throws env w :
  exists connected,
    exec (isOnline env) w = (did_probe w, Ok connected) /\
    (connected = true <-> netInfo env (probes w) = Some (Some true)).
Proof.
  rewrite exec_isOnline. eexists. split; [reflexivity|].
  destruct (netInfo env (probes w)) as [[[|]|]|]; simpl; split;
    congruence.
Qed.

(** ** The management surface *)

Lemma exec_getQueueSize env w :
  exec (getQueueSize env) w
  = (after_read env w, Ok (length (events_read env w))).
Proof. unfold getQueueSize. autorewrite with exec. reflexivity. Qed.

(** X5.  On a stored item that is absent, that holds an array of events or
    that does not parse, [getQueueSize] returns the number of stored events,
    and 0 when the read of the storage fails or the text does not parse:
    the errors of the read and of the parse stay inside [getStoredEvents].
    It leaves the stored text, the requests sent and the guard as they are.
    (On text that parses to something other than an array, which this class
    never writes, [events.length] is outside the model.) *)
Theorem getQueueSize_counts_stored_events env w :
  let w' := (exec (getQueueSize env) w).1 in
  (exec (getQueueSize env) w).2
  = Ok (if getItem_ok env (reads w)
        then length (stored_events (disk w)) else 0%nat) /\
  disk w' = disk w /\ writes w' = writes w /\ sent w' = sent w /\
  isUploading w' = isUploading w.
Proof.
  rewrite exec_getQueueSize. simpl.
  destruct (after_read_frame env w) as (_&?&_&?&_&?&_&?&_).
  split; [|repeat split; assumption].
  unfold events_read. destruct (getItem_ok env (reads w)); reflexivity.
Qed.

(** X6.  [clearQueue] either removes the stored text, after which
    [getQueueSize] reports 0, or lets the storage error reach its caller and
    leaves the stored text as it is: unlike [saveEvent] it has no handler
    of its own. *)
Theorem clearQueue_clears_or_throws env w :
  let w' := (exec (clearQueue env) w).1 in
  if setItem_ok env (writes w)
  then (exec (clearQueue env) w).2 = Ok tt /\
       disk w' = None /\
       (exec (getQueueSize env) w').2 = Ok 0%nat
  else (exec (clearQueue env) w).2 = Throw StorageError /\
       disk w' = disk w.
Proof.
  unfold clearQueue. rewrite exec_removeItem.
  destruct (setItem_ok env (writes w)); simpl; [|split; reflexivity].
  split; [reflexivity|]. split; [reflexivity|].
  rewrite exec_getQueueSize. simpl. unfold events_read. simpl.
  destruct (getItem_ok env (reads w)); reflexivity.
Qed.

(** ** Runs always end *)







(** ** Event ids *)

Lemma pretty_N_char_not_underscore d : pretty_N_char d <> "_"%char.
Proof. unfold pretty_N_char. repeat case_match; discriminate. Qed.

Lemma pretty_N_go_lacks x s :
  lacks "_" s -> lacks "_" (pretty_N_go x s).
Proof.
  revert s. induction (N.lt_wf_0 x) as [x _ IH]; intros s Hs.
  destruct (decide (x = 0)%N) as [->|Hx]; [exact Hs|].
  rewrite pretty_N_go_step by lia. apply IH.
  - apply N.div_lt; lia.
  - split; [apply pretty_N_char_not_underscore | exact Hs].
Qed.

Lemma pretty_N_lacks (x : N) : lacks "_" (pretty x).
Proof.
  unfold pretty, pretty_N. case_decide.
  - simpl. split; [discriminate | exact I].
  - apply pretty_N_go_lacks. exact I.
Qed.

Lemma pretty_Z_lacks (x : Z) : lacks "_" (pretty x).
Proof.
  destruct x as [|p|p]; unfold pretty, pretty_Z.
  - simpl. split; [discriminate | exact I].
  - apply pretty_N_lacks.
  - simpl. split; [discriminate | apply pretty_N_lacks].
Qed.

Lemma app_separator_inj c (a b r r' : string) :
  lacks c a -> lacks c b ->
  a +:+ String c r = b +:+ String c r' -> a = b /\ r = r'.
Proof.
  revert b. induction a as [|x a IH]; intros [|y b] Ha Hb Heq; simpl in *.
  - injection Heq as ->. done.
  - injection Heq as <- _. destruct Hb as [Hb _]. done.
  - injection Heq as -> _. destruct Ha as [Ha _]. done.
  - injection Heq as -> Heq. destruct Ha as [_ Ha], Hb as [_ Hb].
    destruct (IH b Ha Hb Heq) as [-> ->]. done.
Qed.

Lemma eventId_inj now r now' r' :
  eventId now r = eventId now' r' -> now = now' /\ r = r'.
Proof.
  unfold eventId. intros Heq. simpl in Heq. injection Heq as Heq.
  apply app_separator_inj in Heq as [Hp ->]; try apply pretty_Z_lacks.
  split; [|reflexivity]. apply (inj pretty). exact Hp.
Qed.

Lemma exec_generateEventId env w :
  exec (generateEventId env) w
  = (did_random (did_now w),
     Ok (eventId (clock env (nows w)) (random env (randoms w)))).
Proof. unfold generateEventId. autorewrite with exec. reflexivity. Qed.

(** X8.  Two calls of [generateEventId] give the same id exactly when they
    read the same clock value and draw the same random fragment: the
    separator [_] cannot occur in the decimal clock value, so the id
    determines both parts. *)
Theorem generateEventId_collision env w1 w2 :
  (exec (generateEventId env) w1).2 = (exec (generateEventId env) w2).2 <->
  clock env (nows w1) = clock env (nows w2) /\
  random env (randoms w1) = random env (randoms w2).
Proof.
  rewrite !exec_generateEventId. simpl. split.
  - intros Heq. apply eventId_inj.
    exact (f_equal (fun o => match o with Ok i => i | _ => EmptyString end)
             Heq).
  - intros [-> ->]. reflexivity.
Qed.

(** ** The debounce timer *)

Lemma filter_none {A} (P : A -> Prop) `{!forall x, Decision (P x)}
    (l : list A) :
  (forall x, x ∈ l -> ~ P x) -> filter P l = [].
Proof.
  induction l as [|x l IH]; intros Hall; [reflexivity|].
  rewrite filter_cons, decide_False by (apply Hall; left).
  apply IH. intros y Hy. apply Hall. right. exact Hy.
Qed.

Lemma tryUpload_timers w :
  let w' := (exec tryUpload w).1 in
  timers w'
  = match uploadInterval w with
    | Some h => filter (fun t => t <> h) (timers w)
    | None => timers w
    end ++ [S (handles w)] /\
  uploadInterval w' = Some (S (handles w)) /\
  handles w' = S (handles w).
Proof.
  unfold tryUpload, clearTimeout, setTimeout_upload. autorewrite with exec.
  destruct (uploadInterval w); autorewrite with exec; unfold exec; simpl;
    repeat split.
Qed.

Lemma tryUpload_debounces w :
  debounced w ->
  let w' := (exec tryUpload w).1 in
  timers w' = [S (handles w)] /\ uploadInterval w' = Some (S (handles w)) /\
  debounced w'.
Proof.
  intros Hd. destruct (tryUpload_timers w) as (Ht&Hu&_). simpl in *.
  assert (Hts : timers (exec tryUpload w).1 = [S (handles w)]).
  { rewrite Ht. destruct (uploadInterval w) as [h|] eqn:Hh.
    - rewrite filter_none; [reflexivity|].
      intros t Hin Hne. specialize (Hd t Hin). congruence.
    - unfold debounced in Hd. revert Hd.
      destruct (timers w) as [|t ts]; intros Hd; [reflexivity|].
      specialize (Hd t ltac:(left)). congruence. }
  split; [exact Hts|]. split; [exact Hu|].
  intros t. rewrite Hts, list_elem_of_singleton. intros ->. exact Hu.
Qed.

(** [saveEvent] whose write succeeds, up to its call of [tryUpload]. *)
Lemma exec_saveEvent_written env event w :
  setItem_ok env (writes w) = true ->
  exec (saveEvent env event) w
  = exec tryUpload
      (did_log (EventSaved (new_type event))
         (did_write
            (Some (Serialized (pushCapped (events_read env w)
                                 (queuedEvent_of env w event))))
            (after_read env (did_now (did_random (did_now w)))))).
Proof.
  intros Hw. unfold saveEvent, generateEventId. autorewrite with exec.
  set (w1 := did_now (did_random (did_now w))).
  destruct (after_read_frame env w1) as (_&_&_&_&_&_&_&Hws&_).
  simpl in Hws. rewrite Hws, Hw. autorewrite with exec.
  change (events_read env w1) with (events_read env w).
  destruct (exec_tryUpload
              (did_log (EventSaved (new_type event))
                 (did_write
                    (Some (Serialized (pushCapped (events_read env w)
                                         (queuedEvent_of env w event))))
                    (after_read env w1)))) as (w'&E&_).
  simpl. change (type _) with (new_type event).
  unfold queuedEvent_of in *. simpl in *. rewrite E. reflexivity.
Qed.

Lemma saveEvent_debounces env event w :
  setItem_ok env (writes w) = true ->
  debounced w ->
  let w' := (exec (saveEvent env event) w).1 in
  timers w' = [S (handles w)] /\ uploadInterval w' = Some (S (handles w)) /\
  debounced w'.
Proof.
  intros Hw Hd. rewrite (exec_saveEvent_written env event w Hw).
  set (w3 := did_log _ _).
  assert (Hd3 : debounced w3).
  { destruct (after_read_frame env (did_now (did_random (did_now w))))
      as (_&_&Hu&_&Ht&_).
    intros t. unfold w3. simpl. rewrite Ht, Hu. simpl. apply Hd. }
  replace (handles w) with (handles w3); [apply tryUpload_debounces, Hd3|].
  destruct (after_read_frame env (did_now (did_random (did_now w))))
    as (_&_&_&_&_&_&_&_&_&_&_&Hh).
  unfold w3. simpl. exact Hh.
Qed.

(** X9.  Debouncing in [tryUpload]: after a burst of [saveEvent] calls whose
    writes succeed, started with no stray timeout pending, exactly one upload
    timeout is pending, and it is the one [uploadInterval] holds; the
    timeouts of the earlier calls were cancelled. *)
Theorem saveEvent_burst_one_timer env (inputs : list NewEvent) w :
  (forall n, setItem_ok env n = true) ->
  inputs <> [] ->
  debounced w ->
  let w' :=
    (exec (for_of inputs (fun event => await (saveEvent env event))) w).1 in
  exists h, timers w' = [h] /\ uploadInterval w' = Some h.
Proof.
  intros Hw Hne Hd. simpl.
  assert (H : forall inputs w, debounced w ->
    let w' :=
      (exec (for_of inputs (fun event => await (saveEvent env event))) w).1 in
    debounced w' /\
    (inputs <> [] -> exists h, timers w' = [h] /\ uploadInterval w' = Some h)).
  { clear Hne Hd inputs w. intros inputs. induction inputs as [|event inputs IH];
      intros w Hd; simpl.
    - split; [exact Hd | done].
    - autorewrite with exec.
      destruct (saveEvent_debounces env event w (Hw _) Hd) as (Ht&Hu&Hd1).
      destruct (saveEvent_spec env event w) as (w1&E&_). rewrite E in *.
      simpl in Ht, Hu, Hd1 |- *.
      destruct (IH w1 Hd1) as [Hd' Hex]. split; [exact Hd'|]. intros _.
      destruct inputs as [|event' inputs']; [|apply Hex; discriminate].
      simpl. eauto. }
  apply (H inputs w Hd). exact Hne.
Qed.

Lemma saveEvent_burst_one_timer_witness :
  let w := new_OfflineQueue default_config None in
  let w' :=
    (exec (for_of [crash_report; custom_event]
             (fun event => await (saveEvent env_all_fine event))) w).1 in
  exists h, timers w' = [h] /\ uploadInterval w' = Some h.
Proof.
  apply (saveEvent_burst_one_timer env_all_fine [crash_report; custom_event]
           (new_OfflineQueue default_config None)).
  - intros n. reflexivity.
  - discriminate.
  - intros t Ht. simpl in Ht. inversion Ht.
Defined.

(** ** Appending and reading back *)

Lemma pushCapped_last events e : last (pushCapped events e) = Some e.
Proof.
  rewrite pushCapped_keepLast. unfold keepLast.
  rewrite length_app. simpl.
  rewrite drop_app_le by lia. apply last_snoc.
Qed.

Lemma pushCapped_length events e :
  length (pushCapped events e) = Nat.min (S (length events)) 1000.
Proof.
  rewrite pushCapped_keepLast. unfold keepLast.
  rewrite length_drop, length_app. simpl. lia.
Qed.

(** X10.  Round trip: when the write of [saveEvent] succeeds and the next
    read of the storage succeeds, [getStoredEvents] returns a list whose last
    element is the event just saved (with a fresh id and timestamp, no
    retries and the configured [maxRetries]); its length is one more than
    what [saveEvent] read, capped at 1000, and [getQueueSize] reports that
    length. *)
Theorem saveEvent_then_read env event w :
  setItem_ok env (writes w) = true ->
  getItem_ok env (S (reads w)) = true ->
  let w' := (exec (saveEvent env event) w).1 in
  exists events,
    (exec (getStoredEvents env) w').2 = Ok events /\
    last events = Some (queuedEvent_of env w event) /\
    length events = Nat.min (S (length (events_read env w))) 1000 /\
    (exec (getQueueSize env) w').2 = Ok (length events).
Proof.
  intros Hw Hr.
  destruct (saveEvent_spec env event w) as (w'&E&_&_&_&Hrs&_&_&Hd).
  rewrite E, Hw in *. destruct Hd as (Hd&_). simpl.
  exists (pushCapped (events_read env w) (queuedEvent_of env w event)).
  assert (Hread : events_read env w'
                  = pushCapped (events_read env w) (queuedEvent_of env w event)).
  { unfold events_read at 1. rewrite Hrs, Hr, Hd. reflexivity. }
  rewrite exec_getStoredEvents, exec_getQueueSize. simpl. rewrite Hread.
  split; [reflexivity|]. split; [apply pushCapped_last|].
  split; [apply pushCapped_length | reflexivity].
Qed.

Lemma saveEvent_then_read_witness :
  let w := three_stored in
  let w' := (exec (saveEvent env_all_fine crash_report) w).1 in
  exists events,
    (exec (getStoredEvents env_all_fine) w').2 = Ok events /\
    last events = Some (queuedEvent_of env_all_fine w crash_report) /\
    length events = Nat.min (S (length (events_read env_all_fine w))) 1000 /\
    (exec (getQueueSize env_all_fine) w').2 = Ok (length events).
Proof.
  apply (saveEvent_then_read env_all_fine crash_report three_stored);
    reflexivity.
Defined.

(** ** Unique ids *)

Lemma saveEvent_counters env event w :
  setItem_ok env (writes w) = true ->
  let w' := (exec (saveEvent env event) w).1 in
  nows w' = S (S (nows w)) /\ randoms w' = S (randoms w).
Proof.
  intros Hw. rewrite (exec_saveEvent_written env event w Hw).
  set (w3 := did_log _ _).
  destruct (exec_tryUpload w3) as (w'&E&_&_&_&_&_&_&_&_&Hn&Hr&_).
  rewrite E. simpl. rewrite Hn, Hr. unfold w3. simpl.
  destruct (after_read_frame env (did_now (did_random (did_now w))))
    as (_&_&_&_&_&_&_&_&_&Hn'&Hr'&_).
  simpl in Hn', Hr'. split; assumption.
Qed.

Lemma saveEvent_ids_generated env event w :
  storage_ok env ->
  (forall i j, random env i = random env j -> i = j) \/
  (forall i j, clock env i = clock env j -> i = j) ->
  ids_generated env w (stored_events (disk w)) ->
  let w' := (exec (saveEvent env event) w).1 in
  ids_generated env w' (stored_events (disk w')).
Proof.
  intros Hok Hinj [Hnd Hgen].
  destruct (saveEvent_counters env event w (proj2 (Hok _))) as [Hn Hr].
  destruct (saveEvent_stored env event w Hok) as [_ Hs].
  simpl in *. rewrite Hs. unfold keepLast.
  set (e := queuedEvent_of env w event).
  assert (Hall : ids_generated env (exec (saveEvent env event) w).1
                   (stored_events (disk w) ++ [e])).
  { split.
    - rewrite fmap_app. apply NoDup_app. split; [exact Hnd|]. split.
      + intros x Hx Hin. apply list_elem_of_singleton in Hin. subst x.
        apply list_elem_of_fmap in Hx as (e'&Heq&He').
        rewrite Forall_forall in Hgen.
        destruct (Hgen e' He') as (i&j&Hi&Hj&Hid).
        change (id e) with
          (eventId (clock env (nows w)) (random env (randoms w))) in Heq.
        rewrite Hid in Heq. apply eventId_inj in Heq as [Hc Hrnd].
        destruct Hinj as [Hinj|Hinj].
        * apply Hinj in Hrnd. lia.
        * apply Hinj in Hc. lia.
      + apply NoDup_singleton.
    - apply Forall_app. split.
      + eapply Forall_impl; [exact Hgen|]. simpl.
        intros e' (i&j&Hi&Hj&Hid). exists i, j. rewrite Hn, Hr.
        split; [lia|]. split; [lia|exact Hid].
      + constructor; [|constructor].
        exists (nows w), (randoms w). rewrite Hn, Hr.
        split; [lia|]. split; [lia|reflexivity]. }
  destruct Hall as [Hnd' Hgen']. split.
  - rewrite fmap_drop. eapply sublist_NoDup; [exact Hnd'|apply sublist_drop].
  - apply Forall_drop, Hgen'.
Qed.

(** X11.  Events saved one after the other into an empty queue get pairwise
    distinct ids, provided the storage works and either the random source
    never repeats a fragment or the clock never repeats a value. *)
Theorem saveEvent_ids_unique env (inputs : list NewEvent) w :
  storage_ok env ->
  (forall i j, random env i = random env j -> i = j) \/
  (forall i j, clock env i = clock env j -> i = j) ->
  stored_events (disk w) = [] ->
  let w' :=
    (exec (for_of inputs (fun event => await (saveEvent env event))) w).1 in
  NoDup (id <$> stored_events (disk w')).
Proof.
  intros Hok Hinj Hempty. simpl.
  assert (Hgen : ids_generated env w (stored_events (disk w))).
  { rewrite Hempty. split; [apply NoDup_nil_2 | constructor]. }
  clear Hempty. revert w Hgen.
  induction inputs as [|event inputs IH]; intros w Hgen.
  - exact (proj1 Hgen).
  - autorewrite with exec.
    pose proof (saveEvent_ids_generated env event w Hok Hinj Hgen) as H1.
    destruct (saveEvent_spec env event w) as (w1&E&_). rewrite E in *.
    apply IH, H1.
Qed.

Lemma saveEvent_ids_unique_witness :
  let w := new_OfflineQueue default_config None in
  let w' :=
    (exec (for_of [crash_report; custom_event; crash_report]
             (fun event => await (saveEvent env_all_fine event))) w).1 in
  NoDup (id <$> stored_events (disk w')).
Proof.
  apply (saveEvent_ids_unique env_all_fine
           [crash_report; custom_event; crash_report]
           (new_OfflineQueue default_config None)).
  - intros n. split; reflexivity.
  - right. intros i j Hij. simpl in Hij. lia.
  - reflexivity.
Defined.

(** ** Whole runs, batch by batch *)






(** A run over a non-empty readable store of an online device, as its loop. *)
Lemma exec_uploadEvents_loop env w batches :
  isUploading w = false ->
  events_read env w <> [] ->
  netInfo env (probes w) = Some (Some true) ->
  createBatches (events_read env w) (batchSize (config w)) = Some batches ->
  exec (uploadEvents env) w =
  match exec (for_of batches (fun batch => await (uploadBatch env batch)))
          (did_probe (after_read env (set_isUploading true w))) with
  | (w2, Ok _) =>
      (set_isUploading false
         (did_log (Uploaded (length (events_read env w))) w2), Ok tt)
  | (w2, Throw error) =>
      (set_isUploading false (did_log (FailedToUpload error) w2), Ok tt)
  | (w2, Diverge) => (w2, Diverge)
  end.
Proof.
  intros Hidle Hne Hnet Hb. rewrite exec_uploadEvents, Hidle. cbv zeta.
  rewrite bool_decide_eq_false_2
    by (destruct (events_read env w); [done|discriminate]).
  rewrite Hnet, Hb. reflexivity.
Qed.




(** ** Runs that all fail *)














(** ** Storage failures while a batch is settled *)

Lemma handleFailedEvents_nil batch : handleFailedEvents [] batch = ([], []).
Proof. induction batch as [|b batch IH]; simpl; [|rewrite IH]; reflexivity. Qed.

(** X14.  [uploadBatch] can erase the queue.  When the read of the storage
    inside [removeUploadedEvents] or [handleUploadFailure] fails,
    [getStoredEvents] answers with the empty list, and the write that
    follows, if it succeeds, replaces the stored events by the empty list:
    events that were never sent are lost too. *)
Theorem uploadBatch_failed_read_erases_queue env batch w :
  getItem_ok env (reads w) = false ->
  setItem_ok env (writes w) = true ->
  (exec (uploadBatch env batch) w).2 = Ok tt /\
  disk (exec (uploadBatch env batch) w).1 = Some (Serialized []).
Proof.
  intros Hr Hw. rewrite exec_uploadBatch. simpl.
  assert (Hfail : forall error,
    let r := exec (handleUploadFailure env batch)
               (did_log (BatchFailed error)
                  (did_fetch (batch_request (config w) batch
                                (clock env (nows w))) (did_now w))) in
    r.2 = Ok tt /\ disk r.1 = Some (Serialized [])).
  { intros error. rewrite exec_handleUploadFailure. simpl. rewrite Hw.
    unfold events_read. simpl. rewrite Hr, handleFailedEvents_nil.
    split; reflexivity. }
  destruct (server env _ _) as [status|]; [destruct (ok status)|];
    try apply Hfail.
  rewrite exec_removeUploadedEvents. simpl. rewrite Hw.
  unfold events_read. simpl. rewrite Hr. split; reflexivity.
Qed.

Lemma uploadBatch_failed_read_erases_queue_witness :
  (exec (uploadBatch env_reads_fail [event_a]) three_stored).2 = Ok tt /\
  disk (exec (uploadBatch env_reads_fail [event_a]) three_stored).1
  = Some (Serialized []).
Proof.
  apply (uploadBatch_failed_read_erases_queue env_reads_fail [event_a]
           three_stored); reflexivity.
Defined.

(** X15.  A batch the server accepted is treated as failed when the write of
    [removeUploadedEvents] fails: the storage error is caught by the handler
    of [uploadBatch], and [handleUploadFailure] then charges a retry to each
    event of the batch (dropping those out of retries), although the server
    has them. *)
Theorem uploadBatch_accepted_but_not_removed env batch w status :
  server env (length (sent w))
    (batch_request (config w) batch (clock env (nows w)))
  = Responded status ->
  200 <= status <= 299 ->
  setItem_ok env (writes w) = false ->
  getItem_ok env (S (reads w)) = true ->
  setItem_ok env (S (writes w)) = true ->
  (exec (uploadBatch env batch) w).2 = Ok tt /\
  disk (exec (uploadBatch env batch) w).1
  = Some (Serialized (handleFailedEvents (stored_events (disk w)) batch).1).
Proof.
  intros Hs Hst Hw Hr' Hw'. rewrite exec_uploadBatch. simpl. rewrite Hs.
  replace (ok status) with true by (unfold ok; symmetry; apply andb_true_iff;
    split; apply Z.leb_le; lia).
  rewrite exec_removeUploadedEvents. simpl. rewrite Hw.
  rewrite exec_handleUploadFailure. simpl.
  set (w1 := did_fetch _ _).
  destruct (after_read_frame env w1) as (_&_&_&Hd&_&_&Hrs&Hws&_).
  simpl in Hd, Hrs, Hws. rewrite Hws, Hw'. simpl.
  split; [reflexivity|]. unfold events_read. simpl.
  rewrite Hrs, Hr'. reflexivity.
Qed.

Lemma uploadBatch_accepted_but_not_removed_witness :
  (exec (uploadBatch env_first_write_fails [event_a]) three_stored).2
  = Ok tt /\
  disk (exec (uploadBatch env_first_write_fails [event_a]) three_stored).1
  = Some (Serialized
            (handleFailedEvents (stored_events (disk three_stored))
               [event_a]).1).
Proof.
  apply (uploadBatch_accepted_but_not_removed env_first_write_fails
           [event_a] three_stored 200).
  - reflexivity.
  - lia.
  - reflexivity.
  - reflexivity.
  - reflexivity.
Defined.

Lemma uploadBatch_writes_fail env batch w :
  (forall n, setItem_ok env n = false) ->
  (exec (uploadBatch env batch) w).2 = Throw StorageError /\
  disk (exec (uploadBatch env batch) w).1 = disk w.
Proof.
  intros Hw. rewrite exec_uploadBatch. simpl.
  assert (Hfail : forall error w2, disk w2 = disk w ->
    let r := exec (handleUploadFailure env batch)
               (did_log (BatchFailed error) w2) in
    r.2 = Throw StorageError /\ disk r.1 = disk w).
  { intros error w2 Hd2. rewrite exec_handleUploadFailure. simpl.
    rewrite Hw. simpl. split; [reflexivity | exact Hd2]. }
  destruct (server env _ _) as [status|]; [destruct (ok status)|].
  - rewrite exec_removeUploadedEvents. simpl. rewrite Hw.
    destruct (Hfail StorageError
                (did_write (disk w)
                   (after_read env
                      (did_fetch (batch_request (config w) batch
                                    (clock env (nows w))) (did_now w))))
                eq_refl) as [H1 H2].
    split; assumption.
  - destruct (Hfail (UploadFailed status)
                (did_fetch (batch_request (config w) batch
                              (clock env (nows w))) (did_now w)) eq_refl)
      as [H1 H2]. split; assumption.
  - destruct (Hfail TransportError
                (did_fetch (batch_request (config w) batch
                              (clock env (nows w))) (did_now w)) eq_refl)
      as [H1 H2]. split; assumption.
Qed.

(** X16.  When every write of the storage fails, a run of [uploadEvents]
    with events to send sends the first batch only: the error of
    [handleUploadFailure] leaves [uploadBatch], ends the loop and is logged
    by the handler of [uploadEvents].  The run returns normally, releases
    the guard and leaves the stored text as it was. *)
Theorem uploadEvents_stops_when_writes_fail env w :
  (forall n, setItem_ok env n = false) ->
  isUploading w = false ->
  events_read env w <> [] ->
  netInfo env (probes w) = Some (Some true) ->
  0 < batchSize (config w) ->
  let w' := (exec (uploadEvents env) w).1 in
  (exec (uploadEvents env) w).2 = Ok tt /\
  isUploading w' = false /\
  disk w' = disk w /\
  last (console w') = Some (FailedToUpload StorageError) /\
  exists batch rest,
    createBatches (events_read env w) (batchSize (config w))
    = Some (batch :: rest) /\
    sent w' = sent w ++ [batch_request (config w) batch (clock env (nows w))].
Proof.
  intros Hw Hidle Hne Hnet Hbs.
  destruct (createBatches_some (events_read env w) _ Hbs) as (batches&Hb&Hc).
  destruct batches as [|batch rest]; [simpl in Hc; congruence|].
  rewrite (exec_uploadEvents_loop env w (batch :: rest)) by assumption.
  autorewrite with exec. set (w1 := did_probe _).
  destruct (uploadBatch_writes_fail env batch w1 Hw) as (Ho&Hd).
  destruct (uploadBatch_frame env batch w1) as (_&_&_&_&Hs).
  destruct (exec (uploadBatch env batch) w1) as [w2 o]. simpl in *. subst o.
  simpl. destruct (after_read_frame env (set_isUploading true w))
    as (Hc'&_&_&Hd'&_&Hs'&_&_&_&Hn'&_).
  simpl in Hc', Hd', Hs', Hn'.
  split; [reflexivity|]. split; [reflexivity|]. split; [congruence|].
  split; [apply last_snoc|]. exists batch, rest. split; [exact Hb|].
  rewrite Hs. unfold w1. simpl. rewrite Hs', Hc', Hn'. reflexivity.
Qed.

Lemma uploadEvents_stops_when_writes_fail_witness :
  let w := two_stored in
  let w' := (exec (uploadEvents env_writes_fail) w).1 in
  (exec (uploadEvents env_writes_fail) w).2 = Ok tt /\
  isUploading w' = false /\
  disk w' = disk w /\
  last (console w') = Some (FailedToUpload StorageError) /\
  exists batch rest,
    createBatches (events_read env_writes_fail w) (batchSize (config w))
    = Some (batch :: rest) /\
    sent w' = sent w ++ [batch_request (config w) batch
                           (clock env_writes_fail (nows w))].
Proof.
  apply (uploadEvents_stops_when_writes_fail env_writes_fail two_stored).
  - intros n. reflexivity.
  - reflexivity.
  - unfold events_read. simpl. discriminate.
  - reflexivity.
  - reflexivity.
Defined.

(** ** Races *)

Lemma act_turns env a s : rtc (turn env) s (act env a s).
Proof.
  destruct a as [|c|i]; simpl.
  - apply rtc_once, turn_queue, queue_trigger.
  - apply rtc_once, turn_queue, queue_call.
  - destruct (activities s !! i) as [a|] eqn:Hi; [|reflexivity].
    destruct (task_of a) as [o|k] eqn:Hk; [reflexivity|].
    apply rtc_once, turn_queue. eapply queue_resume; eassumption.
Qed.

Lemma play_turns env schedule s : rtc (turn env) s (play env schedule s).
Proof.
  revert s. induction schedule as [|a schedule IH]; intros s; simpl.
  - reflexivity.
  - etrans; [apply act_turns | apply IH].
Qed.

Ltac unfold_async :=
  unfold try_catch, try_finally, await, suspend, mbind, Async_bind, bind,
    andThen, pure, throw, finish, get, update, console_log.

Lemma tryUpload_call w :
  exists w', tryUpload w = (w', Done (Ok tt)) /\ disk w' = disk w.
Proof.
  unfold tryUpload, clearTimeout, setTimeout_upload. unfold_async. simpl.
  destruct (uploadInterval w); simpl; eexists; split; reflexivity.
Qed.

(** The three suspensions of [saveEvent]: it reads, gives way once, and
    writes what it read plus the new event. *)
Lemma saveEvent_stages env event w :
  storage_ok env ->
  exists k1,
    saveEvent env event w = (did_now (did_random (did_now w)), Await k1) /\
    forall wa, exists k2,
      (k1 wa).2 = Await k2 /\ disk (k1 wa).1 = disk wa /\
      forall wb, exists k3,
        k2 wb = (wb, Await k3) /\
        forall wc,
          (k3 wc).2 = Done (Ok tt) /\
          disk (k3 wc).1
          = Some (Serialized (pushCapped (stored_events (disk wa))
                                (queuedEvent_of env w event))).
Proof.
  intros Hok.
  unfold saveEvent, generateEventId, getStoredEvents, Date_now,
    Math_random36, AsyncStorage_getItem, AsyncStorage_setItem.
  unfold_async. simpl. eexists. split; [reflexivity|].
  intros wa. simpl. destruct (Hok (reads wa)) as [-> _].
  assert (Hwrite : forall evs wc,
    let r :=
      (let (w''0, t'0) :=
         if setItem_ok env (writes wc)
         then (did_write
                 (Some (Serialized (pushCapped evs
                                      (queuedEvent_of env w event)))) wc,
               Done (Ok ()))
         else (did_write (disk wc) wc, Done (Throw StorageError)) in
       resume t'0
         (fun o0 : Outcome () =>
            match o0 with
            | Ok _ =>
                fun w1 : World =>
                  tryUpload (did_log (EventSaved (new_type event)) w1)
            | Throw e => fun w1 : World => (w1, Done (Throw e))
            | Diverge => fun w1 : World => (w1, Done Diverge)
            end) w''0) in
    exists w', r = (w', Done (Ok tt)) /\
      disk w' = Some (Serialized (pushCapped evs
                                    (queuedEvent_of env w event)))).
  { intros evs wc. destruct (Hok (writes wc)) as [_ ->]. simpl.
    destruct (tryUpload_call
                (did_log (EventSaved (new_type event))
                   (did_write
                      (Some (Serialized (pushCapped evs
                                           (queuedEvent_of env w event))))
                      wc))) as (w'&->&Hd).
    exists w'. split; [reflexivity | exact Hd]. }
  destruct (disk wa) as [[evs|]|] eqn:Hdisk; simpl;
    (eexists; split; [reflexivity|]; split; [simpl; congruence|];
     intros wb; simpl; eexists; split; [reflexivity|];
     intros wc; simpl;
     match goal with
     | |- context [pushCapped ?evs _] =>
         destruct (Hwrite evs wc) as (w'&E&Hd)
     end;
     unfold queuedEvent_of in E, Hd; simpl in E, Hd |- *;
     rewrite E; simpl; split; [reflexivity | exact Hd]).
Qed.

Lemma play_cons env a schedule s :
  play env (a :: schedule) s = play env schedule (act env a s).
Proof. reflexivity. Qed.

Lemma act_resume env s i a k :
  activities s !! i = Some a ->
  task_of a = Await k ->
  act env (Resume i) s
  = {| world := (k (world s)).1;
       activities := <[i := with_task a (k (world s)).2]> (activities s) |}.
Proof. intros Hi Hk. simpl. rewrite Hi, Hk. reflexivity. Qed.

Lemma act_start env c s :
  act env (Start c) s
  = {| world := (call env c (world s)).1;
       activities := activities s ++ [Other (call env c (world s)).2] |}.
Proof. reflexivity. Qed.

Ltac step_done :=
  cbn [world activities with_task insert list_insert fst snd].

(** X17.  Lost update.  Every [await] of [saveEvent] is a point at which
    another call may run.  Two calls of [saveEvent] that both read the
    storage before either writes it each append their event to the list
    they read; the later write replaces the earlier one, so that, although
    both calls return normally, the stored queue holds the second event and
    not the first. *)
Theorem concurrent_saveEvents_lose_an_event env w event1 event2 :
  storage_ok env ->
  let s := play env [Start (CallSaveEvent event1);
                     Start (CallSaveEvent event2);
                     Resume 0; Resume 1; Resume 0; Resume 1;
                     Resume 0; Resume 1]%nat
             {| world := w; activities := [] |} in
  rtc (turn env) {| world := w; activities := [] |} s /\
  activities s = [Other (Done (Ok tt)); Other (Done (Ok tt))] /\
  exists e2,
    type e2 = new_type event2 /\ data e2 = new_data event2 /\
    stored_events (disk (world s)) = pushCapped (stored_events (disk w)) e2.
Proof.
  intros Hok s. split; [apply play_turns|]. subst s.
  destruct (saveEvent_stages env event1 w Hok) as (a1&Ea&Ha).
  set (w1 := did_now (did_random (did_now w))) in *.
  destruct (saveEvent_stages env event2 w1 Hok) as (b1&Eb&Hb).
  set (w2 := did_now (did_random (did_now w1))) in *.
  (* both calls are made *)
  rewrite play_cons, act_start. cbn [call world activities].
  rewrite Ea. cbn [fst snd app].
  rewrite play_cons, act_start. cbn [call world activities].
  rewrite Eb. cbn [fst snd app].
  (* both read *)
  rewrite play_cons. erewrite act_resume by reflexivity. step_done.
  destruct (Ha w2) as (a2&Ea2&Hda&Ha2). rewrite Ea2.
  set (wa := (a1 w2).1) in *.
  rewrite play_cons. erewrite act_resume by reflexivity. step_done.
  destruct (Hb wa) as (b2&Eb2&Hdb&Hb2). rewrite Eb2.
  set (wb := (b1 wa).1) in *.
  (* both go on *)
  rewrite play_cons. erewrite act_resume by reflexivity. step_done.
  destruct (Ha2 wb) as (a3&Ea3&Ha3). rewrite Ea3. cbn [fst snd].
  rewrite play_cons. erewrite act_resume by reflexivity. step_done.
  destruct (Hb2 wb) as (b3&Eb3&Hb3). rewrite Eb3. cbn [fst snd].
  (* both write *)
  rewrite play_cons. erewrite act_resume by reflexivity. step_done.
  destruct (Ha3 wb) as (Eta&_). rewrite Eta.
  rewrite play_cons. erewrite act_resume by reflexivity. step_done.
  destruct (Hb3 (a3 wb).1) as (Etb&Hd). rewrite Etb.
  unfold play. cbn [foldl world activities].
  split; [reflexivity|].
  exists (queuedEvent_of env w1 event2).
  split; [reflexivity|]. split; [reflexivity|].
  rewrite Hd, Hda. reflexivity.
Qed.

Lemma concurrent_saveEvents_lose_an_event_witness :
  let w := new_OfflineQueue default_config None in
  let s := play env_all_fine
             [Start (CallSaveEvent crash_report);
              Start (CallSaveEvent custom_event);
              Resume 0; Resume 1; Resume 0; Resume 1;
              Resume 0; Resume 1]%nat
             {| world := w; activities := [] |} in
  rtc (turn env_all_fine) {| world := w; activities := [] |} s /\
  activities s = [Other (Done (Ok tt)); Other (Done (Ok tt))] /\
  exists e2,
    type e2 = new_type custom_event /\ data e2 = new_data custom_event /\
    stored_events (disk (world s)) = pushCapped (stored_events (disk w)) e2.
Proof.
  apply (concurrent_saveEvents_lose_an_event env_all_fine
           (new_OfflineQueue default_config None) crash_report custom_event).
  intros n. split; reflexivity.
Defined.

Lemma uploadEvents_suspends env w :
  isUploading w = false ->
  exists k, (uploadEvents env w).2 = Await k.
Proof.
  intros Hg. rewrite uploadEvents_call, Hg.
  unfold try_finally, uploadEvents_try, getStoredEvents, try_catch,
    AsyncStorage_getItem, suspend, await, mbind, Async_bind, bind, andThen,
    get, update.
  simpl. eexists. reflexivity.
Qed.

(** X18.  [MobilePulseSDK.configureOfflineQueue] copies the cleared guard of
    a fresh queue onto the singleton.  Whatever is running at that moment,
    the next trigger of [uploadEvents] passes the guard and starts a run of
    its own: the number of runs in flight goes up by one. *)
Theorem configureOfflineQueue_lets_a_second_run_start env cfg s :
  let s1 := {| world := configureOfflineQueue cfg (world s);
               activities := activities s |} in
  let s2 := {| world := (uploadEvents env (world s1)).1;
               activities := activities s1 ++
                 [Upload (negb (isUploading (world s1)))
                    (uploadEvents env (world s1)).2] |} in
  turn env s1 s2 /\
  runs_in_flight (activities s2) = S (runs_in_flight (activities s)).
Proof.
  intros s1 s2. split; [apply turn_queue, queue_trigger|].
  subst s2. cbn [activities]. rewrite runs_in_flight_app, runs_in_flight_cons.
  destruct (uploadEvents_suspends env (world s1)) as (k&Hk); [reflexivity|].
  rewrite Hk. subst s1. cbn [world activities in_flight].
  unfold configureOfflineQueue. simpl. unfold runs_in_flight at 2. simpl. lia.
Qed.

(** ** What the log and the store say after errors *)

(** X19.  The closing log line of [uploadEvents] counts the events the run
    read, not the events delivered: when the writes of the storage succeed,
    a run that found events, was online and had a positive batch size ends
    by logging [Successfully uploaded n events], n being the number of
    events read, whatever the server answered to the batches, also when it
    rejected every one of them. *)
Theorem uploadEvents_success_log_counts_events_read env w :
  (forall n, setItem_ok env n = true) ->
  isUploading w = false ->
  events_read env w <> [] ->
  netInfo env (probes w) = Some (Some true) ->
  0 < batchSize (config w) ->
  last (console (exec (uploadEvents env) w).1)
  = Some (Uploaded (length (events_read env w))).
Proof.
  intros Hw Hidle Hne Hnet Hbs. rewrite exec_uploadEvents, Hidle. cbv zeta.
  rewrite bool_decide_eq_false_2
    by (destruct (events_read env w); [done|discriminate]).
  rewrite Hnet. simpl negb. cbv iota.
  destruct (createBatches_some (events_read env w) _ Hbs) as (batches&->&_).
  destruct (for_of_uploadBatch_sends_all env batches
              (did_probe (after_read env (set_isUploading true w))) Hw)
    as (Hret&_).
  destruct (exec (for_of batches _) _) as [w2 o]. simpl in Hret. subst o.
  simpl. apply last_snoc.
Qed.

Lemma uploadEvents_success_log_counts_events_read_witness :
  last (console (exec (uploadEvents env_server_down) three_stored).1)
  = Some (Uploaded (length (events_read env_server_down three_stored))).
Proof.
  apply (uploadEvents_success_log_counts_events_read env_server_down
           three_stored).
  - intros n. reflexivity.
  - reflexivity.
  - unfold events_read. simpl. discriminate.
  - reflexivity.
  - reflexivity.
Defined.

(** X20.  [saveEvent] can erase the queue.  When its read of the storage
    fails, [getStoredEvents] answers with the empty list, and the write that
    follows, if it succeeds, replaces whatever was stored by the new event
    alone; [saveEvent] returns normally. *)
Theorem saveEvent_failed_read_overwrites_queue env event w :
  getItem_ok env (reads w) = false ->
  setItem_ok env (writes w) = true ->
  (exec (saveEvent env event) w).2 = Ok tt /\
  disk (exec (saveEvent env event) w).1
  = Some (Serialized [queuedEvent_of env w event]).
Proof.
  intros Hr Hw.
  destruct (saveEvent_spec env event w) as (w'&E&_&_&_&_&_&_&Hd).
  rewrite E, Hw in *. destruct Hd as (Hd&_). simpl.
  split; [reflexivity|]. rewrite Hd. unfold events_read. rewrite Hr.
  reflexivity.
Qed.

Lemma saveEvent_failed_read_overwrites_queue_witness :
  (exec (saveEvent env_reads_fail crash_report) three_stored).2 = Ok tt /\
  disk (exec (saveEvent env_reads_fail crash_report) three_stored).1
  = Some (Serialized [queuedEvent_of env_reads_fail three_stored crash_report]).
Proof.
  apply (saveEvent_failed_read_overwrites_queue env_reads_fail crash_report
           three_stored); reflexivity.
Defined.
